(** * The asyncio reactor of the Cassandra driver
    ([cassandra/io/asyncioreactor.py]): a shallow embedding and its
    properties.

    Python values are modelled as the code has them: [bytes] as lists of
    bytes, Python integers as [Z], exceptions as an error result, objects
    with dynamic attributes as finite maps from attribute names.  The two
    coroutines [handle_write] and [handle_read] are modelled one loop
    iteration at a time, the socket answering through an explicit outcome;
    the calls into the base [Connection] class ([defunct],
    [process_io_buffer]) are recorded in a call log. *)

From Stdlib Require Import ZArith Lia.
From Stdlib.Strings Require Import Byte.
From stdpp Require Import base list gmap strings.

Local Open Scope Z_scope.

(** ** Python primitives *)

Module Py.

(** The exceptions the module raises or handles.  [socket.error] is
    [OSError]; the two TLS conditions derive from it. *)
Inductive exn : Type :=
| ValueError
| TypeError
| AttributeError
| NotImplementedError
| RuntimeError
| CancelledError
| SSLWantReadError
| SSLWantWriteError
| SocketError (errno : Z).

#[global] Instance exn_eq_dec : EqDecision exn.
Proof. solve_decision. Defined.

(** [isinstance(e, socket.error)] *)
Definition is_socket_error (e : exn) : bool :=
  match e with
  | SocketError _ | SSLWantReadError | SSLWantWriteError => true
  | _ => false
  end.

(** [isinstance(e, (ssl.SSLWantWriteError, ssl.SSLWantReadError))] *)
Definition is_ssl_want (e : exn) : bool :=
  match e with
  | SSLWantReadError | SSLWantWriteError => true
  | _ => false
  end.

(** A call either returns or raises. *)
Inductive result (A : Type) : Type :=
| Return (a : A)
| Raise (e : exn).
Arguments Return {A} a.
Arguments Raise {A} e.

#[global] Instance result_ret : MRet result := fun A a => Return a.
#[global] Instance result_bind : MBind result := fun A B k r =>
  match r with
  | Return a => k a
  | Raise e => Raise e
  end.

Definition bytes : Type := list byte.

#[global] Instance byte_eq_dec : EqDecision byte := Byte.byte_eq_dec.

(** [len(range(start, stop, step))], as CPython computes it. *)
Definition range_length (start stop step : Z) : Z :=
  if (0 <? step) && (start <? stop) then 1 + (stop - 1 - start) / step
  else if (step <? 0) && (stop <? start) then 1 + (start - 1 - stop) / (- step)
  else 0.

(** [range(start, stop, step)]: item [k] is [start + k * step]; a zero
    step raises [ValueError]. *)
Definition range (start stop step : Z) : result (list Z) :=
  if step =? 0 then Raise ValueError
  else Return (map (fun k : nat => start + Z.of_nat k * step)
                   (seq 0 (Z.to_nat (range_length start stop step)))).

(** A slice bound is taken from the end when negative and clamped to the
    length. *)
Definition slice_index (len i : Z) : Z :=
  if i <? 0 then Z.max 0 (i + len) else Z.min i len.

(** [data[lo:hi]] *)
Definition slice (data : bytes) (lo hi : Z) : bytes :=
  let len := Z.of_nat (length data) in
  let lo' := slice_index len lo in
  let hi' := slice_index len hi in
  take (Z.to_nat (hi' - lo')) (drop (Z.to_nat lo') data).

(** [io.BytesIO]: the content and the stream position. *)
Record BytesIO : Type := mkBytesIO {
  getvalue : bytes;
  tell : nat
}.

(** [BytesIO.write(b)]: an empty [b] changes nothing; otherwise the
    bytes are written at the position (zero padded when the position is
    past the end) and the position moves past them. *)
Definition write (b : bytes) (io : BytesIO) : BytesIO :=
  match b with
  | [] => io
  | _ =>
      let v := getvalue io in
      let p := tell io in
      let padded := v ++ replicate (p - length v)%nat x00 in
      {| getvalue := take p padded ++ b ++ drop (p + length b)%nat padded;
         tell := (p + length b)%nat |}
  end.

End Py.

Import Py.

(** ** The timer *)

Module AsyncioTimer.

(** What [run_coroutine_threadsafe] is given: [_call_delayed_coro]
    sleeps for the timeout and calls the callback. *)
Record coroutine : Type := _call_delayed_coro {
  timeout : Z;
  callback : nat
}.

(** The states of a [concurrent.futures.Future]. *)
Inductive future_state : Type :=
| Pending
| Running
| FutureCancelled
| Finished.

Record future : Type := mkFuture {
  coro : coroutine;
  on_loop : nat;
  state : future_state
}.

(** [Future.cancel()]: refused once running or finished, a no-op once
    cancelled; it answers whether the future is cancelled. *)
Definition future_cancel (f : future) : future * bool :=
  match state f with
  | Running | Finished => (f, false)
  | FutureCancelled => (f, true)
  | Pending => ({| coro := coro f; on_loop := on_loop f;
                   state := FutureCancelled |}, true)
  end.

(** [asyncio.run_coroutine_threadsafe(coro, loop)] starts with
    [loop.call_soon_threadsafe], an attribute that [None] lacks. *)
Definition run_coroutine_threadsafe (co : coroutine) (loop : option nat)
  : result future :=
  match loop with
  | None => Raise AttributeError
  | Some l => Return {| coro := co; on_loop := l; state := Pending |}
  end.

Record timer : Type := mkTimer { _handle : future }.

(** [AsyncioTimer.__init__] *)
Definition __init__ (timeout : Z) (callback : nat) (loop : option nat)
  : result timer :=
  let delayed := _call_delayed_coro timeout callback in
  h ← run_coroutine_threadsafe delayed loop;
  mret {| _handle := h |}.

(** The [end] property. *)
Definition end_ (self : timer) : result Z := Raise NotImplementedError.

(** [finish] *)
Definition finish (self : timer) : result unit := Raise NotImplementedError.

(** [cancel]: the handle's [cancel], its answer dropped. *)
Definition cancel (self : timer) : result timer :=
  mret {| _handle := fst (future_cancel (_handle self)) |}.

(** Python values, as far as [__lt__] meets them, and objects as their
    attribute dictionaries. *)
Inductive value : Type :=
| VNone
| VBool (b : bool)
| VInt (z : Z)
| VNotImplemented
| VFuture (f : future).

Record object : Type := mkObject { attrs : gmap string value }.

Definition getattr (o : object) (name : string) : result value :=
  match attrs o !! name with
  | Some v => Return v
  | None => Raise AttributeError
  end.

(** A timer as an object: its one attribute is [_handle]. *)
Definition as_object (t : timer) : object :=
  {| attrs := {[ "_handle"%string := VFuture (_handle t) ]} |}.

Section Compare.

(** [a < b] on the values of two [_handle] attributes; it belongs to
    the handles' type. *)
Variable handle_lt : value -> value -> result value.

(** [__lt__]: an [AttributeError] anywhere in the comparison reaches
    [raise NotImplemented]; [NotImplemented] is no exception, so that
    statement raises [TypeError]. *)
Definition __lt__ (self other : object) : result value :=
  match (a ← getattr self "_handle"%string;
         b ← getattr other "_handle"%string;
         handle_lt a b) with
  | Raise AttributeError => Raise TypeError
  | r => r
  end.

End Compare.

End AsyncioTimer.

(** ** The connection *)

Module AsyncioConnection.

(** A task submitted with [run_coroutine_threadsafe] and the coroutine
    behind it: running (possibly waiting on the queue or the socket),
    parked at a bare [yield], cancelled through its handle, returned, or
    ended by an exception that nothing caught. *)
Inductive task : Type :=
| Active
| Yielded
| Cancelled
| Returned
| Failed (e : exn).

#[global] Instance task_eq_dec : EqDecision task.
Proof. solve_decision. Defined.

Definition terminated (t : task) : bool :=
  match t with
  | Active | Yielded => false
  | _ => true
  end.

(** What the connection does to its collaborators and to the socket, in
    the order it does it. *)
Inductive call : Type :=
| CallClose                       (* close() entered *)
| SetClosed                       (* is_closed = True *)
| CancelWrite                     (* _write_watcher.cancel() *)
| CancelRead                      (* _read_watcher.cancel() *)
| SetConnected                    (* connected_event.set() *)
| Defunct (e : exn)               (* defunct(err) *)
| ProcessIoBuffer                 (* process_io_buffer() *)
| Dequeue (msg : bytes)           (* _write_queue.get() returned msg *)
| SendAll (msg : bytes)           (* sock_sendall(_socket, msg) *)
| Recv                            (* sock_recv(_socket, in_buffer_size) *)
| YieldToLoop.                    (* bare yield *)

#[global] Instance call_eq_dec : EqDecision call.
Proof. solve_decision. Defined.

Record conn : Type := mkConn {
  out_buffer_size : Z;
  in_buffer_size : Z;
  is_closed : bool;
  connected_event : bool;
  (** [put] coroutines handed to the loop by [_push_chunk] and not yet
      run, oldest first *)
  submitted : list bytes;
  _write_queue : list bytes;
  (** the bytes the socket has taken *)
  sent : bytes;
  _iobuf : BytesIO;
  _write_watcher : task;
  _read_watcher : task;
  calls : list call
}.

(** How often a call occurs in a log. *)
Definition count (c : call) (l : list call) : nat :=
  length (filter (fun x => x = c) l).

(** Field updates. *)
Definition set_is_closed (b : bool) (c : conn) : conn :=
  mkConn (out_buffer_size c) (in_buffer_size c) b (connected_event c)
         (submitted c) (_write_queue c) (sent c) (_iobuf c)
         (_write_watcher c) (_read_watcher c) (calls c).

Definition set_connected_event (b : bool) (c : conn) : conn :=
  mkConn (out_buffer_size c) (in_buffer_size c) (is_closed c) b
         (submitted c) (_write_queue c) (sent c) (_iobuf c)
         (_write_watcher c) (_read_watcher c) (calls c).

Definition set_submitted (l : list bytes) (c : conn) : conn :=
  mkConn (out_buffer_size c) (in_buffer_size c) (is_closed c)
         (connected_event c) l (_write_queue c) (sent c) (_iobuf c)
         (_write_watcher c) (_read_watcher c) (calls c).

Definition set_write_queue (q : list bytes) (c : conn) : conn :=
  mkConn (out_buffer_size c) (in_buffer_size c) (is_closed c)
         (connected_event c) (submitted c) q (sent c) (_iobuf c)
         (_write_watcher c) (_read_watcher c) (calls c).

Definition set_sent (b : bytes) (c : conn) : conn :=
  mkConn (out_buffer_size c) (in_buffer_size c) (is_closed c)
         (connected_event c) (submitted c) (_write_queue c) b (_iobuf c)
         (_write_watcher c) (_read_watcher c) (calls c).

Definition set_iobuf (io : BytesIO) (c : conn) : conn :=
  mkConn (out_buffer_size c) (in_buffer_size c) (is_closed c)
         (connected_event c) (submitted c) (_write_queue c) (sent c) io
         (_write_watcher c) (_read_watcher c) (calls c).

Definition set_write_watcher (t : task) (c : conn) : conn :=
  mkConn (out_buffer_size c) (in_buffer_size c) (is_closed c)
         (connected_event c) (submitted c) (_write_queue c) (sent c)
         (_iobuf c) t (_read_watcher c) (calls c).

Definition set_read_watcher (t : task) (c : conn) : conn :=
  mkConn (out_buffer_size c) (in_buffer_size c) (is_closed c)
         (connected_event c) (submitted c) (_write_queue c) (sent c)
         (_iobuf c) (_write_watcher c) t (calls c).

(** Appends one entry to the call log. *)
Definition record (k : call) (c : conn) : conn :=
  mkConn (out_buffer_size c) (in_buffer_size c) (is_closed c)
         (connected_event c) (submitted c) (_write_queue c) (sent c)
         (_iobuf c) (_write_watcher c) (_read_watcher c) (calls c ++ [k]).

(** [AsyncioConnection.__init__] up to the two watchers: an empty queue
    on the shared loop, both coroutines submitted.  The options message
    that the base class sends last goes through [push] like any other
    payload.  The buffer sizes and the input buffer are the base
    class's. *)
Definition new_connection (out_size in_size : Z) : conn :=
  {| out_buffer_size := out_size;
     in_buffer_size := in_size;
     is_closed := false;
     connected_event := false;
     submitted := [];
     _write_queue := [];
     sent := [];
     _iobuf := {| getvalue := []; tell := 0%nat |};
     _write_watcher := Active;
     _read_watcher := Active;
     calls := [] |}.

(** *** push *)

(** [_push_chunk]: hands [_write_queue.put(chunk)] to the loop. *)
Definition _push_chunk (chunk : bytes) (c : conn) : conn :=
  set_submitted (submitted c ++ [chunk]) c.

(** [push]: the payload goes as it is when it fits the buffer size, and
    slice by slice otherwise. *)
Definition push (data : bytes) (c : conn) : result conn :=
  let buff_size := out_buffer_size c in
  if Z.of_nat (length data) >? buff_size then
    r ← range 0 (Z.of_nat (length data)) buff_size;
    mret (foldl (fun c i => _push_chunk (slice data i (i + buff_size)) c) c r)
  else
    mret (_push_chunk data c).

(** One turn of the loop on the oldest submitted [put]: the queue is
    unbounded, so the chunk is appended at once. *)
Definition loop_put (c : conn) : conn :=
  match submitted c with
  | [] => c
  | chunk :: rest =>
      set_write_queue (_write_queue c ++ [chunk]) (set_submitted rest c)
  end.

(** The loop runs every submitted [put]. *)
Definition loop_puts (c : conn) : conn :=
  set_write_queue (_write_queue c ++ submitted c) (set_submitted [] c).

(** *** close *)

(** [cancel()] on a watcher: the coroutine behind it, parked at an await,
    is not resumed again; a coroutine that has ended stays as it ended. *)
Definition cancel_task (t : task) : task :=
  if terminated t then t else Cancelled.

(** The statements of [close], one by one. *)
Definition close_set_closed (c : conn) : conn :=
  record SetClosed (set_is_closed true c).

Definition close_cancel_write (c : conn) : conn :=
  record CancelWrite (set_write_watcher (cancel_task (_write_watcher c)) c).

Definition close_cancel_read (c : conn) : conn :=
  record CancelRead (set_read_watcher (cancel_task (_read_watcher c)) c).

Definition close_set_connected (c : conn) : conn :=
  record SetConnected (set_connected_event true c).

(** [close], run by one thread without interruption. *)
Definition close (c : conn) : conn :=
  let c := record CallClose c in
  if is_closed c then c
  else
    close_set_connected
      (close_cancel_read (close_cancel_write (close_set_closed c))).

(** [close] run by several threads.  Each thread is at one of these
    places; [self.lock] is held from [AtTest] until the [with] block is
    left. *)
Inductive close_pc : Type :=
| AtEntry
| AtLock
| AtTest
| AtSet
| AtCancelWrite
| AtCancelRead
| AtSetEvent
| Done.

#[global] Instance close_pc_eq_dec : EqDecision close_pc.
Proof. solve_decision. Defined.

Record threads : Type := mkThreads {
  shared : conn;
  lock : option nat;
  pc : nat -> close_pc
}.

(** Thread [t] moves to [p]. *)
Definition at_pc (t : nat) (p : close_pc) (f : nat -> close_pc)
  : nat -> close_pc :=
  fun u => if decide (u = t) then p else f u.

(** One step of thread [t]; a thread waiting for a held lock does not
    move. *)
Definition close_step (t : nat) (s : threads) : threads :=
  match pc s t with
  | AtEntry =>
      mkThreads (record CallClose (shared s)) (lock s) (at_pc t AtLock (pc s))
  | AtLock =>
      match lock s with
      | None => mkThreads (shared s) (Some t) (at_pc t AtTest (pc s))
      | Some _ => s
      end
  | AtTest =>
      if is_closed (shared s)
      then mkThreads (shared s) None (at_pc t Done (pc s))
      else mkThreads (shared s) (lock s) (at_pc t AtSet (pc s))
  | AtSet =>
      mkThreads (close_set_closed (shared s)) None
                (at_pc t AtCancelWrite (pc s))
  | AtCancelWrite =>
      mkThreads (close_cancel_write (shared s)) (lock s)
                (at_pc t AtCancelRead (pc s))
  | AtCancelRead =>
      mkThreads (close_cancel_read (shared s)) (lock s)
                (at_pc t AtSetEvent (pc s))
  | AtSetEvent =>
      mkThreads (close_set_connected (shared s)) (lock s)
                (at_pc t Done (pc s))
  | Done => s
  end.

(** The threads move in the order of the schedule. *)
Definition close_run (schedule : list nat) (s : threads) : threads :=
  foldl (fun s t => close_step t s) s schedule.

(** No thread has called [close] yet. *)
Definition before_close (c : conn) : threads :=
  mkThreads c None (fun _ => AtEntry).

(** *** handle_write *)

(** [defunct] is the base class's; the call is recorded. *)
Definition defunct (e : exn) (c : conn) : conn := record (Defunct e) c.

(** How [sock_sendall] ends: the whole message is taken, or an exception
    is raised after the socket took the first [n] bytes. *)
Inductive send_outcome : Type :=
| SendOk
| SendRaise (n : nat) (e : exn).

(** One iteration of the loop of [handle_write].  With an empty queue the
    coroutine stays parked in [get]. *)
Definition handle_write (o : send_outcome) (c : conn) : conn :=
  match _write_watcher c with
  | Active =>
      match _write_queue c with
      | [] => c
      | next_msg :: q =>
          let c := record (Dequeue next_msg) (set_write_queue q c) in
          match next_msg with
          | [] => c
          | _ =>
              let c := record (SendAll next_msg) c in
              match o with
              | SendOk => set_sent (sent c ++ next_msg) c
              | SendRaise n e =>
                  let c := set_sent (sent c ++ take n next_msg) c in
                  if is_socket_error e
                  then set_write_watcher Returned (defunct e c)
                  else set_write_watcher (Failed e) c
              end
          end
      end
  | _ => c
  end.

(** *** handle_read *)

(** The base class's decoder, which consumes the input buffer. *)
Class Connection : Type := {
  process_io_buffer : BytesIO -> BytesIO
}.

(** How [sock_recv] ends. *)
Inductive recv_outcome : Type :=
| RecvData (buf : bytes)
| RecvRaise (e : exn).

Section ReadLoop.

Context `{Connection}.

(** One iteration of the loop of [handle_read], up to its [continue],
    [return] or end. *)
Definition handle_read (o : recv_outcome) (c : conn) : conn :=
  match _read_watcher c with
  | Active =>
      let c := record Recv c in
      match o with
      | RecvData buf =>
          let c := set_iobuf (write buf (_iobuf c)) c in
          if bool_decide (buf <> []) && bool_decide (tell (_iobuf c) <> 0%nat)
          then record ProcessIoBuffer
                      (set_iobuf (process_io_buffer (_iobuf c)) c)
          else set_read_watcher Returned (close c)
      | RecvRaise e =>
          if is_ssl_want e
          then set_read_watcher Yielded (record YieldToLoop c)
          else if is_socket_error e
               then set_read_watcher Returned (defunct e c)
               else set_read_watcher (Failed e) c
      end
  | _ => c
  end.

(** The loop resumes a coroutine parked at the bare [yield] on its next
    turn; the coroutine is then at the top of its loop again. *)
Definition resume_read (c : conn) : conn :=
  match _read_watcher c with
  | Yielded => set_read_watcher Active c
  | _ => c
  end.

(** *** One connection over time *)

Inductive event : Type :=
| Push (data : bytes)
| LoopPut
| WriteTurn (o : send_outcome)
| ReadTurn (o : recv_outcome)
| ResumeRead
| CloseCall.

Definition step (ev : event) (c : conn) : conn :=
  match ev with
  | Push data =>
      match push data c with
      | Return c' => c'
      | Raise _ => c
      end
  | LoopPut => loop_put c
  | WriteTurn o => handle_write o c
  | ReadTurn o => handle_read o c
  | ResumeRead => resume_read c
  | CloseCall => close c
  end.

Definition run (evs : list event) (c : conn) : conn :=
  foldl (fun c ev => step ev c) c evs.

End ReadLoop.

(** The payloads pushed in a history, in order. *)
Definition pushed (evs : list event) : list bytes :=
  omap (fun ev => match ev with Push d => Some d | _ => None end) evs.

(** The loop runs the submitted [put]s and the write loop empties the
    queue into a socket that accepts everything. *)
Definition drain (c : conn) : conn :=
  let c := loop_puts c in
  foldl (fun c _ => handle_write SendOk c) c (_write_queue c).

(** *** The shared loop *)

(** The thread that [initialize_reactor] starts: the loop it runs and the
    process it was started in.  A thread does not live on in a forked
    child. *)
Record thread : Type := mkThread {
  target : nat;
  started_in : Z
}.

(** The class attributes, and every thread started so far. *)
Record reactor : Type := mkReactor {
  _loop : option nat;
  _pid : Z;
  _loop_thread : option thread;
  started : list thread
}.

(** The class as the module leaves it when imported in process [pid]. *)
Definition imported (pid : Z) : reactor :=
  {| _loop := None; _pid := pid; _loop_thread := None; started := [] |}.

(** What the interpreter answers during one call. *)
Record env : Type := mkEnv {
  getpid : Z;
  get_event_loop : result nat
}.

(** [cls._loop = l] *)
Definition set_loop (l : option nat) (cls : reactor) : reactor :=
  mkReactor l (_pid cls) (_loop_thread cls) (started cls).

(** [initialize_reactor], the class lock held throughout. *)
Definition initialize_reactor (e : env) (cls : reactor)
  : reactor * result unit :=
  let cls := if bool_decide (_pid cls <> getpid e)
             then set_loop None cls else cls in
  let got :=
    match _loop cls with
    | None =>
        match get_event_loop e with
        | Return l => (set_loop (Some l) cls, Return l)
        | Raise x => (cls, Raise x)
        end
    | Some l => (cls, Return l)
    end in
  match got with
  | (cls, Raise x) => (cls, Raise x)
  | (cls, Return l) =>
      match _loop_thread cls with
      | None =>
          let th := {| target := l; started_in := getpid e |} in
          (mkReactor (_loop cls) (_pid cls) (Some th) (started cls ++ [th]),
           Return ())
      | Some _ => (cls, Return ())
      end
  end.

(** [create_timer] *)
Definition create_timer (timeout : Z) (callback : nat) (cls : reactor)
  : result AsyncioTimer.timer :=
  AsyncioTimer.__init__ timeout callback (_loop cls).


(** *** __init__ *)

(** What the base class brings to the construction of a connection: how
    [_connect_socket] ends, the two buffer sizes, and
    [_send_options_message], which works on the connection made so
    far. *)
Record base : Type := mkBase {
  _connect_socket : result unit;
  base_out_buffer_size : Z;
  base_in_buffer_size : Z;
  _send_options_message : conn -> result conn
}.

(** [run_coroutine_threadsafe] on one of the two loops of the
    connection: it needs [loop.call_soon_threadsafe]. *)
Definition submit_watcher (loop : option nat) : result task :=
  match loop with
  | None => Raise AttributeError
  | Some _ => Return Active
  end.

(** [AsyncioConnection.__init__]: the socket is connected, the queue is
    made on the class's loop ([asyncio.Queue] given no loop asks
    [get_event_loop]), the read loop and then the write loop are
    submitted, and the options message is sent. *)
Definition __init__ (cls : reactor) (e : env) (b : base) : result conn :=
  _ ← _connect_socket b;
  _ ← match _loop cls with
      | Some l => Return l
      | None => get_event_loop e
      end;
  r ← submit_watcher (_loop cls);
  w ← submit_watcher (_loop cls);
  _send_options_message b
    (set_read_watcher r
       (set_write_watcher w
          (new_connection (base_out_buffer_size b) (base_in_buffer_size b)))).

End AsyncioConnection.

Import AsyncioConnection.

(** ** The vocabulary of the statements *)

(** What the socket has taken, followed by what is still queued and
    what is still on its way to the queue, is what was pushed; once the
    write loop has ended the socket keeps a prefix of it. *)
Definition in_order (pushed_bytes : bytes) (c : conn) : Prop :=
  exists rest : bytes,
    sent c ++ rest = pushed_bytes
    /\ (_write_watcher c = Active ->
        rest = concat (_write_queue c) ++ concat (submitted c)).

(** The dequeues and sends in a log, and the receives. *)
Definition is_write_call (k : call) : bool :=
  match k with
  | Dequeue _ | SendAll _ => true
  | _ => false
  end.

Definition write_calls (c : conn) : list call :=
  filter (fun k => is_write_call k = true) (calls c).

Definition recv_calls (c : conn) : nat := count Recv (calls c).

(** How many of each of the four effects of [close] the log of [c] has
    gained over that of [c0]. *)
Definition gained (c0 c : conn) (a b d e : nat) : Prop :=
  count SetClosed (calls c) = (count SetClosed (calls c0) + a)%nat
  /\ count CancelWrite (calls c) = (count CancelWrite (calls c0) + b)%nat
  /\ count CancelRead (calls c) = (count CancelRead (calls c0) + d)%nat
  /\ count SetConnected (calls c) = (count SetConnected (calls c0) + e)%nat.

(** The places inside the [with self.lock] block. *)
Definition holds_lock (p : close_pc) : bool :=
  match p with AtTest | AtSet => true | _ => false end.

(** The places a thread can be at while the flag is not set. *)
Definition not_past_lock (p : close_pc) : bool :=
  match p with AtEntry | AtLock | AtTest | AtSet => true | _ => false end.

(** The places of a thread that did not set the flag, once it is set. *)
Definition found_closed (p : close_pc) : bool :=
  match p with AtEntry | AtLock | AtTest | Done => true | _ => false end.

(** The thread that set the flag, and how far it has come. *)
Definition winner_at (c0 : conn) (p : close_pc) (c : conn) : Prop :=
  match p with
  | AtCancelWrite => gained c0 c 1 0 0 0
  | AtCancelRead => gained c0 c 1 1 0 0
  | AtSetEvent => gained c0 c 1 1 1 0
  | Done => gained c0 c 1 1 1 1
  | _ => False
  end.

(** What holds of the threads in [close] at every moment: the lock is
    held by the thread inside the block; until the flag is set no thread
    is past the block and nothing has happened; afterwards one thread is
    on its way through the cancellations and the others return early. *)
Record close_inv (c0 : conn) (s : threads) : Prop := {
  inv_lock : forall t, holds_lock (pc s t) = true <-> lock s = Some t;
  inv_open :
    is_closed (shared s) = false ->
    (forall t, not_past_lock (pc s t) = true) /\ gained c0 (shared s) 0 0 0 0;
  inv_closed :
    is_closed (shared s) = true ->
    exists w, (forall t, t <> w -> found_closed (pc s t) = true)
              /\ winner_at c0 (pc s w) (shared s)
}.

(** What one iteration of the write loop logs for a message. *)
Definition write_log (msg : bytes) : list call :=
  match msg with
  | [] => [Dequeue msg]
  | _ => [Dequeue msg; SendAll msg]
  end.

(** * Properties *)

(** ** push *)

Lemma set_submitted_same (c : conn) : set_submitted (submitted c) c = c.
Proof. by destruct c. Qed.

Lemma push_chunks_foldl (f : Z -> bytes) (l : list Z) (c : conn) :
  foldl (fun c i => _push_chunk (f i) c) c l
  = set_submitted (submitted c ++ map f l) c.
Proof.
  revert c. induction l as [|i l IH]; intros c; simpl.
  - by rewrite app_nil_r, set_submitted_same.
  - rewrite IH. unfold _push_chunk, set_submitted. simpl.
    by rewrite <- app_assoc.
Qed.

(** A slice between two bounds that are not negative. *)
Lemma slice_take_drop (data : bytes) (lo hi : Z) :
  0 <= lo -> 0 <= hi ->
  slice data lo hi
  = take (Z.to_nat hi - Z.to_nat lo) (drop (Z.to_nat lo) data).
Proof.
  intros Hlo Hhi. unfold slice, slice_index.
  destruct (Z.ltb_spec lo 0); [lia|]. destruct (Z.ltb_spec hi 0); [lia|].
  destruct (Z.le_gt_cases (Z.of_nat (length data)) lo) as [Hge|Hlt].
  - rewrite !drop_ge by lia. by rewrite !take_nil.
  - replace (Z.to_nat (lo `min` Z.of_nat (length data))) with (Z.to_nat lo)
      by lia.
    destruct (Z.le_gt_cases hi (Z.of_nat (length data))).
    + f_equal. lia.
    + rewrite Z.min_r by lia.
      rewrite !take_ge; [done| |]; rewrite length_drop; lia.
Qed.

(** The first [m] slices of width [w] make up the first [m * w]
    bytes. *)
Lemma slices_take (data : bytes) (w : nat) (m : nat) :
  concat (map (fun k : nat => take w (drop (k * w) data)) (seq 0 m))
  = take (m * w) data.
Proof.
  induction m as [|m IH].
  - by rewrite take_0.
  - rewrite seq_S, map_app, concat_app, IH. simpl.
    rewrite app_nil_r, take_take_drop. f_equal. lia.
Qed.

Lemma range_covers (n w : Z) :
  0 < w -> 0 <= n -> n <= range_length 0 n w * w.
Proof.
  intros Hw Hn. unfold range_length.
  destruct (Z.ltb_spec 0 w); [|lia]. simpl.
  destruct (Z.ltb_spec 0 n).
  2: { destruct (Z.ltb_spec w 0); [lia|]. simpl. lia. }
  pose proof (Z.div_mod (n - 1 - 0) w ltac:(lia)).
  pose proof (Z.mod_pos_bound (n - 1 - 0) w ltac:(lia)). nia.
Qed.

Lemma range_slices (data : bytes) (w : Z) (r : list Z) :
  0 < w ->
  range 0 (Z.of_nat (length data)) w = Return r ->
  concat (map (fun i => slice data i (i + w)) r) = data
  /\ Forall (fun ch : bytes => Z.of_nat (length ch) <= w)
            (map (fun i => slice data i (i + w)) r).
Proof.
  intros Hw. unfold range. destruct (Z.eqb_spec w 0); [lia|].
  intros [= <-]. rewrite map_map.
  set (m := Z.to_nat (range_length 0 (Z.of_nat (length data)) w)).
  assert (Hext : forall k : nat,
             slice data (0 + Z.of_nat k * w) (0 + Z.of_nat k * w + w)
             = take (Z.to_nat w) (drop (k * Z.to_nat w) data)).
  { intros k. rewrite slice_take_drop by nia.
    f_equal; [nia|f_equal; nia]. }
  split.
  - erewrite map_ext by (intros k; apply Hext).
    rewrite slices_take. apply take_ge.
    pose proof (range_covers (Z.of_nat (length data)) w Hw ltac:(lia)).
    assert (0 <= range_length 0 (Z.of_nat (length data)) w) by nia.
    subst m. nia.
  - apply Forall_forall. intros ch Hin.
    apply list_elem_of_In, in_map_iff in Hin as (k & <- & _).
    rewrite Hext, length_take. lia.
Qed.

(** Running the submitted [put]s one turn at a time is [loop_puts]. *)
Lemma loop_puts_turns (l : list bytes) (c : conn) :
  submitted c = l ->
  foldl (fun c _ => loop_put c) c l = loop_puts c.
Proof.
  revert c. induction l as [|ch l IH]; intros c Hc; simpl.
  - destruct c; simpl in *; subst.
    unfold loop_puts, set_write_queue, set_submitted; simpl.
    by rewrite app_nil_r.
  - rewrite IH; unfold loop_put; rewrite Hc; [|done].
    unfold loop_puts, set_write_queue, set_submitted. simpl.
    by rewrite Hc, <- app_assoc.
Qed.

Lemma push_submits (c : conn) (data : bytes) :
  0 < out_buffer_size c ->
  exists chunks : list bytes,
    push data c = Return (set_submitted (submitted c ++ chunks) c)
    /\ concat chunks = data
    /\ Forall (fun ch : bytes => Z.of_nat (length ch) <= out_buffer_size c)
              chunks.
Proof.
  intros Hw. unfold push.
  destruct (Z.gtb_spec (Z.of_nat (length data)) (out_buffer_size c)) as [Hgt|Hle].
  - destruct (range 0 (Z.of_nat (length data)) (out_buffer_size c))
      as [r|e] eqn:Hr.
    + destruct (range_slices data _ r Hw Hr) as [Hcat Hall].
      eexists. split; [|split; [exact Hcat|exact Hall]].
      simpl. by rewrite push_chunks_foldl.
    + unfold range in Hr. destruct (Z.eqb_spec (out_buffer_size c) 0); [lia|done].
  - exists [data]. split; [done|]. split.
    + simpl. by rewrite app_nil_r.
    + by repeat constructor.
Qed.

(** C1. For a positive [out_buffer_size], [push data] hands the loop a
    sequence of chunks, in order, that the loop appends to the write
    queue behind what is there; the chunks concatenated are [data] and
    none is longer than [out_buffer_size].  With a size of 4, pushing
    five ["A"] and then five ["B"] enqueues AAAA, A, BBBB, B. *)
Theorem push_enqueues_chunks :
  (forall (c : conn) (data : bytes),
      0 < out_buffer_size c ->
      exists chunks : list bytes,
        push data c = Return (set_submitted (submitted c ++ chunks) c)
        /\ _write_queue (loop_puts (set_submitted (submitted c ++ chunks) c))
           = _write_queue c ++ submitted c ++ chunks
        /\ concat chunks = data
        /\ Forall (fun ch : bytes => Z.of_nat (length ch) <= out_buffer_size c)
                  chunks)
  /\ (forall in_size : Z,
         (c1 ← push (replicate 5 "A"%byte) (new_connection 4 in_size);
          c2 ← push (replicate 5 "B"%byte) c1;
          mret (_write_queue (loop_puts c2)))
         = Return [ replicate 4 "A"%byte; ["A"%byte];
                    replicate 4 "B"%byte; ["B"%byte] ]).
Proof.
  split.
  - intros c data Hw.
    destruct (push_submits c data Hw) as (chunks & Hpush & Hcat & Hall).
    exists chunks. by repeat split.
  - intros in_size. reflexivity.
Qed.

Lemma push_enqueues_chunks_witness :
  0 < out_buffer_size (new_connection 4 4096)
  /\ exists chunks : list bytes,
       push (replicate 5 "A"%byte) (new_connection 4 4096)
       = Return (set_submitted
                   (submitted (new_connection 4 4096) ++ chunks)
                   (new_connection 4 4096))
       /\ _write_queue
            (loop_puts (set_submitted
                          (submitted (new_connection 4 4096) ++ chunks)
                          (new_connection 4 4096)))
          = _write_queue (new_connection 4 4096)
            ++ submitted (new_connection 4 4096) ++ chunks
       /\ concat chunks = replicate 5 "A"%byte
       /\ Forall (fun ch : bytes =>
                    Z.of_nat (length ch)
                    <= out_buffer_size (new_connection 4 4096))
                 chunks.
Proof.
  split; [reflexivity|].
  apply (proj1 push_enqueues_chunks). reflexivity.
Defined.

(** Outside the theorem's hypothesis: a zero size makes [range] raise
    before anything is submitted, a negative size submits nothing. *)
Example push_zero_size :
  push ["A"%byte] (new_connection 0 4096) = Raise ValueError.
Proof. reflexivity. Qed.

Example push_negative_size :
  push ["A"%byte] (new_connection (-1) 4096)
  = Return (new_connection (-1) 4096).
Proof. reflexivity. Qed.

(** ** The write loop and the order of the bytes *)

Section Order.

Context `{Connection}.

Lemma cancel_task_not_active (t : task) :
  cancel_task t = Active -> False.
Proof. by destruct t. Qed.

Lemma close_write_side (c : conn) :
  sent (close c) = sent c
  /\ _write_queue (close c) = _write_queue c
  /\ submitted (close c) = submitted c
  /\ out_buffer_size (close c) = out_buffer_size c
  /\ (_write_watcher (close c) = Active -> _write_watcher c = Active).
Proof.
  unfold close. simpl. destruct (is_closed c); simpl; repeat split; auto.
  intros Hc. by apply cancel_task_not_active in Hc.
Qed.

Lemma handle_read_write_side (o : recv_outcome) (c : conn) :
  sent (handle_read o c) = sent c
  /\ _write_queue (handle_read o c) = _write_queue c
  /\ submitted (handle_read o c) = submitted c
  /\ out_buffer_size (handle_read o c) = out_buffer_size c
  /\ (_write_watcher (handle_read o c) = Active -> _write_watcher c = Active).
Proof.
  unfold handle_read.
  destruct (_read_watcher c); try by repeat split.
  destruct o as [buf|e].
  - match goal with |- context [if ?b then _ else _] => destruct b end.
    + by repeat split.
    + simpl.
      match goal with |- context [close ?x] =>
        destruct (close_write_side x) as (-> & -> & -> & -> & Hw) end.
      repeat split; auto.
  - destruct (is_ssl_want e); [by repeat split|].
    destruct (is_socket_error e); by repeat split.
Qed.

Lemma out_buffer_size_step (ev : event) (c : conn) :
  out_buffer_size (step ev c) = out_buffer_size c.
Proof.
  destruct ev as [data| |o|o| |]; simpl.
  - unfold push.
    destruct (Z.of_nat (length data) >? out_buffer_size c); [|done].
    destruct (range _ _ _) as [r|e]; simpl; [|done].
    by rewrite push_chunks_foldl.
  - unfold loop_put. by destruct (submitted c).
  - unfold handle_write. destruct (_write_watcher c); try done.
    destruct (_write_queue c) as [|[|b m] q]; try done.
    destruct o as [|n e]; [done|]. by destruct (is_socket_error e).
  - apply handle_read_write_side.
  - unfold resume_read. by destruct (_read_watcher c).
  - apply close_write_side.
Qed.

Lemma in_order_step (ev : event) (c : conn) (p : bytes) :
  0 < out_buffer_size c ->
  in_order p c ->
  in_order (p ++ concat (pushed [ev])) (step ev c).
Proof.
  intros Hw (rest & Hsent & Hact).
  destruct ev as [data| |o|o| |]; simpl; rewrite ?app_nil_r.
  - destruct (push_submits c data Hw) as (chunks & -> & Hcat & _).
    exists (rest ++ data). simpl. split.
    + by rewrite app_assoc, Hsent.
    + intros Ha. rewrite (Hact Ha), concat_app, Hcat.
      by rewrite <- app_assoc.
  - exists rest. unfold loop_put.
    destruct (submitted c) as [|ch s] eqn:Hs; simpl.
    + split; [done|]. intros Ha. rewrite Hs. auto.
    + split; [done|]. intros Ha. rewrite (Hact Ha), concat_app. simpl.
      by rewrite app_nil_r, <- app_assoc.
  - unfold handle_write.
    destruct (_write_watcher c) eqn:Ha; try (exists rest; by rewrite ?Ha).
    specialize (Hact eq_refl).
    destruct (_write_queue c) as [|[|b m] q] eqn:Hq.
    + exists rest. by rewrite Ha, Hq.
    + exists rest. by simpl.
    + remember (b :: m) as msg eqn:Hmsg.
      assert (Hrest : rest = msg ++ concat q ++ concat (submitted c)).
      { rewrite Hact. simpl. by rewrite <- app_assoc. }
      destruct o as [|n e].
      * exists (concat q ++ concat (submitted c)).
        rewrite Hmsg at 1. simpl. split; [|done].
        by rewrite <- Hsent, Hrest, <- !app_assoc.
      * exists (drop n msg ++ concat q ++ concat (submitted c)).
        rewrite Hmsg at 1.
        destruct (is_socket_error e); simpl; (split; [|done]);
          by rewrite <- Hsent, Hrest, <- !app_assoc,
               (app_assoc (take n msg)), take_drop.
  - destruct (handle_read_write_side o c) as (Hs & Hq & Hsub & _ & Hb).
    exists rest. rewrite Hs, Hq, Hsub. split; [done|]. auto.
  - exists rest. unfold resume_read. by destruct (_read_watcher c).
  - destruct (close_write_side c) as (Hs & Hq & Hsub & _ & Hb).
    exists rest. rewrite Hs, Hq, Hsub. split; [done|]. auto.
Qed.

Lemma run_snoc (evs : list event) (ev : event) (c : conn) :
  run (evs ++ [ev]) c = step ev (run evs c).
Proof. unfold run. by rewrite foldl_app. Qed.

Lemma out_buffer_size_run (evs : list event) (c : conn) :
  out_buffer_size (run evs c) = out_buffer_size c.
Proof.
  induction evs as [|ev evs IH] using rev_ind; [done|].
  by rewrite run_snoc, out_buffer_size_step.
Qed.

Lemma in_order_run (evs : list event) (c : conn) (p : bytes) :
  0 < out_buffer_size c ->
  in_order p c ->
  in_order (p ++ concat (pushed evs)) (run evs c).
Proof.
  intros Hw Hc. induction evs as [|ev evs IH] using rev_ind.
  - simpl. by rewrite app_nil_r.
  - rewrite run_snoc. unfold pushed in *.
    rewrite omap_app, concat_app, app_assoc.
    apply in_order_step; [|done]. by rewrite out_buffer_size_run.
Qed.

(** A socket that takes everything gets the whole queue, in order. *)
Lemma write_all (q : list bytes) (c : conn) :
  _write_watcher c = Active ->
  _write_queue c = q ->
  sent (foldl (fun c _ => handle_write SendOk c) c q)
  = sent c ++ concat q.
Proof.
  revert c. induction q as [|msg q IH]; intros c Ha Hq; simpl.
  - by rewrite app_nil_r.
  - rewrite IH.
    + unfold handle_write. rewrite Ha, Hq.
      destruct msg; simpl; [done|]. by rewrite <- app_assoc.
    + unfold handle_write. rewrite Ha, Hq. by destruct msg.
    + unfold handle_write. rewrite Ha, Hq. by destruct msg.
Qed.

Lemma drain_sent (c : conn) :
  _write_watcher c = Active ->
  sent (drain c)
  = sent c ++ concat (_write_queue c) ++ concat (submitted c).
Proof.
  intros Ha. unfold drain. rewrite write_all; [|done|done].
  simpl. by rewrite concat_app.
Qed.

End Order.

(** C2. On one connection with a positive [out_buffer_size], whatever
    the order in which pushes, loop turns, write and read iterations and
    closes happen: the bytes the socket has taken are a prefix of the
    pushed payloads concatenated in push order; while the write loop
    runs, they are followed by exactly what is queued and what is on its
    way to the queue, and a socket that takes everything ends up with the
    whole concatenation. *)
Theorem sends_in_push_order (K : Connection) (out_size in_size : Z)
    (evs : list event) :
  0 < out_size ->
  let c := run evs (new_connection out_size in_size) in
  (exists rest : bytes, sent c ++ rest = concat (pushed evs))
  /\ (_write_watcher c = Active ->
      sent c ++ concat (_write_queue c) ++ concat (submitted c)
      = concat (pushed evs)
      /\ sent (drain c) = concat (pushed evs)).
Proof.
  intros Hw c.
  assert (Hin : in_order ([] ++ concat (pushed evs)) c).
  { apply in_order_run; [done|]. exists []. by split. }
  destruct Hin as (rest & Hsent & Hact). simpl in Hsent. split.
  - by exists rest.
  - intros Ha. rewrite drain_sent by done. by rewrite <- (Hact Ha).
Qed.

Lemma sends_in_push_order_witness :
  let K := {| process_io_buffer := fun io => io |} in
  let evs := [ Push (replicate 5 "A"%byte); LoopPut; WriteTurn SendOk;
               Push (replicate 5 "B"%byte); ReadTurn (RecvData ["x"%byte]);
               LoopPut; LoopPut; WriteTurn SendOk ] in
  let c := run evs (new_connection 4 4096) in
  0 < 4
  /\ _write_watcher c = Active
  /\ sent c = replicate 4 "A"%byte ++ ["A"%byte]
  /\ sent (drain c) = concat (pushed evs).
Proof.
  intros K evs c.
  split; [lia|]. split; [reflexivity|]. split; [reflexivity|].
  apply (proj2 (sends_in_push_order K 4 4096 evs ltac:(lia))).
  reflexivity.
Defined.

(** ** What the two loops leave in the call log *)

Section Loops.

Context `{Connection}.

Lemma count_app (k : call) (l1 l2 : list call) :
  count k (l1 ++ l2) = (count k l1 + count k l2)%nat.
Proof. unfold count. by rewrite filter_app, length_app. Qed.

Lemma push_result (data : bytes) (c : conn) :
  (exists e, push data c = Raise e)
  \/ (exists chunks,
         push data c = Return (set_submitted (submitted c ++ chunks) c)).
Proof.
  unfold push.
  destruct (Z.of_nat (length data) >? out_buffer_size c).
  - destruct (range _ _ _) as [r|e]; simpl; [|by eauto].
    right. rewrite push_chunks_foldl. by eexists.
  - right. by exists [data].
Qed.

(** The steps that are not the write loop's leave its calls alone and
    do not revive it. *)
Lemma write_done_step (ev : event) (c : conn) :
  terminated (_write_watcher c) = true ->
  _write_watcher (step ev c) = _write_watcher c
  /\ write_calls (step ev c) = write_calls c
  /\ sent (step ev c) = sent c.
Proof.
  intros Ht. unfold write_calls.
  destruct ev as [data| |o|o| |]; simpl.
  - destruct (push_result data c) as [[e ->]|[chunks ->]]; by simpl.
  - unfold loop_put. by destruct (submitted c).
  - unfold handle_write. revert Ht. by destruct (_write_watcher c) eqn:E.
  - unfold handle_read, close, close_set_connected, close_cancel_read,
      close_cancel_write, close_set_closed, defunct, cancel_task.
    repeat case_match; simpl in *; rewrite ?filter_app; simpl;
      rewrite ?app_nil_r; (done || congruence).
  - unfold resume_read. by destruct (_read_watcher c).
  - unfold close, close_set_connected, close_cancel_read,
      close_cancel_write, close_set_closed, cancel_task.
    repeat case_match; simpl in *; rewrite ?filter_app; simpl;
      rewrite ?app_nil_r; (done || congruence).
Qed.

Lemma write_done_run (evs : list event) (c : conn) :
  terminated (_write_watcher c) = true ->
  _write_watcher (run evs c) = _write_watcher c
  /\ write_calls (run evs c) = write_calls c
  /\ sent (run evs c) = sent c.
Proof.
  intros Ht.
  induction evs as [|ev evs (IHw & IHc & IHs)] using rev_ind; [done|].
  rewrite run_snoc.
  destruct (write_done_step ev (run evs c)) as (Hw & Hc & Hs);
    [by rewrite IHw|].
  by rewrite Hw, Hc, Hs.
Qed.

(** Likewise for the read loop and its receives. *)
Lemma read_done_step (ev : event) (c : conn) :
  terminated (_read_watcher c) = true ->
  _read_watcher (step ev c) = _read_watcher c
  /\ recv_calls (step ev c) = recv_calls c.
Proof.
  intros Ht. unfold recv_calls.
  destruct ev as [data| |o|o| |]; simpl.
  - destruct (push_result data c) as [[e ->]|[chunks ->]]; by simpl.
  - unfold loop_put. by destruct (submitted c).
  - unfold handle_write, defunct.
    repeat case_match; simpl; rewrite ?count_app; unfold count; simpl;
      split; (done || lia).
  - unfold handle_read. revert Ht. by destruct (_read_watcher c) eqn:E.
  - unfold resume_read. revert Ht. by destruct (_read_watcher c) eqn:E.
  - unfold close, close_set_connected, close_cancel_read,
      close_cancel_write, close_set_closed, cancel_task.
    repeat case_match; simpl in *; rewrite ?count_app; unfold count;
      simpl; (congruence || (split; (done || lia))).
Qed.

Lemma read_done_run (evs : list event) (c : conn) :
  terminated (_read_watcher c) = true ->
  _read_watcher (run evs c) = _read_watcher c
  /\ recv_calls (run evs c) = recv_calls c.
Proof.
  intros Ht. induction evs as [|ev evs [IHw IHc]] using rev_ind; [done|].
  rewrite run_snoc.
  destruct (read_done_step ev (run evs c)) as [Hw Hc];
    [by rewrite IHw|].
  by rewrite Hw, Hc.
Qed.

End Loops.

(** C5. A socket error raised by the send of a message makes the write
    loop call [defunct] with that error once and return: the error does not
    leave the coroutine, and in everything that follows the loop stays
    returned, dequeues and sends nothing more, and its iterations do
    nothing. *)
Theorem send_error_defuncts_once (K : Connection) (c : conn) (msg : bytes)
    (q : list bytes) (n : nat) (e : exn) :
  _write_watcher c = Active ->
  _write_queue c = msg :: q ->
  msg <> [] ->
  is_socket_error e = true ->
  let c' := handle_write (SendRaise n e) c in
  calls c' = calls c ++ [Dequeue msg; SendAll msg; Defunct e]
  /\ count (Defunct e) (calls c') = S (count (Defunct e) (calls c))
  /\ _write_watcher c' = Returned
  /\ forall evs : list event,
       _write_watcher (run evs c') = Returned
       /\ write_calls (run evs c') = write_calls c'
       /\ sent (run evs c') = sent c'
       /\ forall o, handle_write o (run evs c') = run evs c'.
Proof.
  intros Ha Hq Hmsg He c'.
  assert (Hc : calls c' = calls c ++ [Dequeue msg; SendAll msg; Defunct e]).
  { subst c'. unfold handle_write. rewrite Ha, Hq.
    destruct msg; [done|]. rewrite He. simpl.
    by rewrite <- !app_assoc. }
  assert (Hw : _write_watcher c' = Returned).
  { subst c'. unfold handle_write. rewrite Ha, Hq.
    destruct msg; [done|]. by rewrite He. }
  split; [done|]. split.
  - rewrite Hc, count_app. unfold count at 2.
    rewrite !filter_cons, filter_nil.
    repeat case_decide; try done. simpl. lia.
  - split; [done|]. intros evs.
    destruct (write_done_run evs c') as (Hw' & Hc' & Hs'); [by rewrite Hw|].
    rewrite Hw in Hw'. repeat split; try done.
    intros o. unfold handle_write. by rewrite Hw'.
Qed.

Lemma send_error_defuncts_once_witness :
  let K := {| process_io_buffer := fun io => io |} in
  let c := loop_puts (_push_chunk ["A"%byte; "B"%byte]
                                  (new_connection 4 4096)) in
  let c' := handle_write (SendRaise 1 (SocketError 32)) c in
  calls c' = [ Dequeue ["A"%byte; "B"%byte]; SendAll ["A"%byte; "B"%byte];
               Defunct (SocketError 32) ]
  /\ _write_watcher (run [Push ["C"%byte]; LoopPut; WriteTurn SendOk] c')
     = Returned.
Proof.
  intros K c c'.
  pose proof (send_error_defuncts_once K c ["A"%byte; "B"%byte] [] 1
                (SocketError 32) eq_refl eq_refl ltac:(done) eq_refl)
    as (Hc & _ & _ & Hrun).
  split; [exact Hc|].
  exact (proj1 (Hrun [Push ["C"%byte]; LoopPut; WriteTurn SendOk])).
Defined.

(** C6. A receive of zero bytes makes the read loop call [close] once
    and return; [defunct] is not called, and in everything that follows
    the loop stays returned and receives nothing more. *)
Theorem zero_byte_recv_closes (K : Connection) (c : conn) :
  _read_watcher c = Active ->
  let c' := handle_read (RecvData []) c in
  calls c'
  = calls c ++ Recv :: CallClose
      :: (if is_closed c then []
          else [SetClosed; CancelWrite; CancelRead; SetConnected])
  /\ count CallClose (calls c') = S (count CallClose (calls c))
  /\ (forall e, count (Defunct e) (calls c') = count (Defunct e) (calls c))
  /\ _read_watcher c' = Returned
  /\ is_closed c' = true
  /\ forall evs : list event,
       _read_watcher (run evs c') = Returned
       /\ recv_calls (run evs c') = recv_calls c'
       /\ forall o, handle_read o (run evs c') = run evs c'.
Proof.
  intros Ha c'.
  assert (Hc : calls c'
               = calls c ++ Recv :: CallClose
                   :: (if is_closed c then []
                       else [SetClosed; CancelWrite; CancelRead;
                             SetConnected])).
  { subst c'. unfold handle_read, close. rewrite Ha. simpl.
    destruct (is_closed c); simpl; by rewrite <- !app_assoc. }
  assert (Hw : _read_watcher c' = Returned).
  { subst c'. unfold handle_read. by rewrite Ha. }
  split; [done|]. split; [|split; [|split; [done|split]]].
  - rewrite Hc, count_app. unfold count at 2.
    destruct (is_closed c); simpl; lia.
  - intros e. rewrite Hc, count_app. unfold count at 2.
    destruct (is_closed c); simpl; lia.
  - subst c'. unfold handle_read, close. rewrite Ha. simpl.
    by destruct (is_closed c) eqn:E.
  - intros evs.
    destruct (read_done_run evs c') as (Hw' & Hc'); [by rewrite Hw|].
    rewrite Hw in Hw'. repeat split; try done.
    intros o. unfold handle_read. by rewrite Hw'.
Qed.

Lemma zero_byte_recv_closes_witness :
  let K := {| process_io_buffer := fun io => io |} in
  let c' := handle_read (RecvData []) (new_connection 4 4096) in
  calls c' = [Recv; CallClose; SetClosed; CancelWrite; CancelRead;
              SetConnected]
  /\ recv_calls (run [ReadTurn (RecvData ["x"%byte]); ResumeRead] c')
     = recv_calls c'.
Proof.
  intros K c'.
  pose proof (zero_byte_recv_closes K (new_connection 4 4096) eq_refl)
    as (Hc & _ & _ & _ & _ & Hrun).
  split; [exact Hc|].
  exact (proj1 (proj2 (Hrun [ReadTurn (RecvData ["x"%byte]); ResumeRead]))).
Defined.

(** C7. When the receive raises [ssl.SSLWantWriteError] or
    [ssl.SSLWantReadError], the read loop does not end and does not call
    [defunct]; the input buffer is as it was; the coroutine is parked at
    its bare [yield], where it receives nothing, and the loop's next turn
    puts it back at the top of its loop, whose next iteration starts with
    a receive. *)
Theorem ssl_want_yields_and_retries (K : Connection) (c : conn) (e : exn) :
  _read_watcher c = Active ->
  e = SSLWantWriteError \/ e = SSLWantReadError ->
  let c' := handle_read (RecvRaise e) c in
  _read_watcher c' = Yielded
  /\ terminated (_read_watcher c') = false
  /\ calls c' = calls c ++ [Recv; YieldToLoop]
  /\ (forall x, count (Defunct x) (calls c') = count (Defunct x) (calls c))
  /\ _iobuf c' = _iobuf c
  /\ (forall o, handle_read o c' = c')
  /\ _read_watcher (resume_read c') = Active
  /\ calls (resume_read c') = calls c'
  /\ _iobuf (resume_read c') = _iobuf c
  /\ forall o, exists more : list call,
       calls (handle_read o (resume_read c'))
       = calls c' ++ Recv :: more.
Proof.
  intros Ha He c'.
  assert (Hc' : c' = set_read_watcher Yielded
                       (record YieldToLoop (record Recv c))).
  { subst c'. unfold handle_read. rewrite Ha. by destruct He as [-> | ->]. }
  clearbody c'. subst c'. simpl.
  repeat split.
  - by rewrite <- app_assoc.
  - intros x. rewrite !count_app. unfold count at 2 3. simpl. lia.
  - intros o. unfold handle_read, resume_read, close, defunct. simpl.
    destruct o as [buf|x].
    + repeat case_match; eexists; simpl; rewrite <- ?app_assoc; simpl;
        reflexivity.
    + repeat case_match; eexists; simpl; rewrite <- ?app_assoc; simpl;
        reflexivity.
Qed.

Lemma ssl_want_yields_and_retries_witness :
  let K := {| process_io_buffer := fun io => io |} in
  let c' := handle_read (RecvRaise SSLWantReadError)
                        (new_connection 4 4096) in
  _read_watcher c' = Yielded
  /\ calls c' = [Recv; YieldToLoop]
  /\ _iobuf (handle_read (RecvData ["x"%byte]) (resume_read c'))
     = {| getvalue := ["x"%byte]; tell := 1 |}.
Proof.
  intros K c'.
  pose proof (ssl_want_yields_and_retries K (new_connection 4 4096)
                SSLWantReadError eq_refl (or_intror eq_refl))
    as (Hy & _ & Hc & _).
  split; [exact Hy|]. split; [exact Hc|]. reflexivity.
Defined.

(** ** close *)

Section CloseThreads.

(** The connection before any thread calls [close]. *)
Variable c0 : conn.

Lemma at_pc_same (t : nat) (p : close_pc) (f : nat -> close_pc) :
  at_pc t p f t = p.
Proof. unfold at_pc. by case_decide. Qed.

Lemma at_pc_other (t u : nat) (p : close_pc) (f : nat -> close_pc) :
  u <> t -> at_pc t p f u = f u.
Proof. intros Hne. unfold at_pc. by case_decide. Qed.

Ltac tally :=
  unfold winner_at, gained, close_set_closed, close_cancel_write,
    close_cancel_read, close_set_connected in *;
  simpl in *; rewrite ?count_app; unfold count in *; simpl; lia.

Lemma close_inv_start :
  is_closed c0 = false -> close_inv c0 (before_close c0).
Proof.
  intros Hopen. split; simpl.
  - intros t. split; [done|]. done.
  - intros _. split; [done|]. unfold gained. lia.
  - intros Hc. congruence.
Qed.

Lemma close_inv_step (t : nat) (s : threads) :
  close_inv c0 s -> close_inv c0 (close_step t s).
Proof.
  intros Hinv. pose proof Hinv as [Hl Ho Hc]. unfold close_step.
  destruct (pc s t) eqn:Hpc.
  - (* AtEntry *)
    split; simpl.
    + intros u. destruct (decide (u = t)) as [->|Hne].
      * rewrite at_pc_same. simpl. rewrite <- Hl, Hpc. done.
      * rewrite at_pc_other by done. apply Hl.
    + intros Hopen. destruct (Ho Hopen) as [Hall Hg]. split.
      * intros u. destruct (decide (u = t)) as [->|Hne].
        -- by rewrite at_pc_same.
        -- rewrite at_pc_other by done. apply Hall.
      * tally.
    + intros Hclosed. destruct (Hc Hclosed) as (w & Hothers & Hw).
      exists w. assert (w <> t) by (intros ->; by rewrite Hpc in Hw).
      split.
      * intros u Hu. destruct (decide (u = t)) as [->|Hne].
        -- by rewrite at_pc_same.
        -- rewrite at_pc_other by done. by apply Hothers.
      * rewrite at_pc_other by done. destruct (pc s w); try done; tally.
  - (* AtLock *)
    destruct (lock s) as [holder|] eqn:Hlock; [exact Hinv|].
    split; simpl.
    + intros u. destruct (decide (u = t)) as [->|Hne].
      * by rewrite at_pc_same.
      * rewrite at_pc_other by done. rewrite Hl. split; [done|].
        intros [= ->]. done.
    + intros Hopen. destruct (Ho Hopen) as [Hall Hg]. split; [|done].
      intros u. destruct (decide (u = t)) as [->|Hne].
      * by rewrite at_pc_same.
      * rewrite at_pc_other by done. apply Hall.
    + intros Hclosed. destruct (Hc Hclosed) as (w & Hothers & Hw).
      exists w. assert (w <> t) by (intros ->; by rewrite Hpc in Hw).
      split.
      * intros u Hu. destruct (decide (u = t)) as [->|Hne].
        -- by rewrite at_pc_same.
        -- rewrite at_pc_other by done. by apply Hothers.
      * by rewrite at_pc_other by done.
  - (* AtTest *)
    assert (Hmine : lock s = Some t) by (apply Hl; by rewrite Hpc).
    destruct (is_closed (shared s)) eqn:Hflag.
    + split; simpl.
      * intros u. destruct (decide (u = t)) as [->|Hne].
        -- by rewrite at_pc_same.
        -- rewrite at_pc_other by done. rewrite Hl, Hmine.
           split; [intros [= ->]; done|done].
      * intros Hopen. congruence.
      * intros _. destruct (Hc eq_refl) as (w & Hothers & Hw).
        exists w. assert (w <> t) by (intros ->; by rewrite Hpc in Hw).
        split.
        -- intros u Hu. destruct (decide (u = t)) as [->|Hne].
           ++ by rewrite at_pc_same.
           ++ rewrite at_pc_other by done. by apply Hothers.
        -- by rewrite at_pc_other by done.
    + split; simpl.
      * intros u. destruct (decide (u = t)) as [->|Hne].
        -- by rewrite at_pc_same.
        -- rewrite at_pc_other by done. apply Hl.
      * intros _. destruct (Ho eq_refl) as [Hall Hg]. split; [|done].
        intros u. destruct (decide (u = t)) as [->|Hne].
        -- by rewrite at_pc_same.
        -- rewrite at_pc_other by done. apply Hall.
      * intros Hclosed. congruence.
  - (* AtSet *)
    assert (Hmine : lock s = Some t) by (apply Hl; by rewrite Hpc).
    assert (Hflag : is_closed (shared s) = false).
    { destruct (is_closed (shared s)) eqn:Hflag; [|done].
      destruct (Hc eq_refl) as (w & Hothers & Hw).
      destruct (decide (t = w)) as [->|Hne].
      - by rewrite Hpc in Hw.
      - specialize (Hothers t Hne). by rewrite Hpc in Hothers. }
    destruct (Ho Hflag) as [Hall Hg].
    split; simpl.
    + intros u. destruct (decide (u = t)) as [->|Hne].
      * by rewrite at_pc_same.
      * rewrite at_pc_other by done. split; [|done].
        intros Hu. apply Hl in Hu. congruence.
    + intros Hopen. done.
    + intros _. exists t. split.
      * intros u Hu. rewrite at_pc_other by done.
        specialize (Hall u).
        assert (holds_lock (pc s u) = false).
        { destruct (holds_lock (pc s u)) eqn:Hh; [|done].
          apply Hl in Hh. congruence. }
        by destruct (pc s u).
      * rewrite at_pc_same. tally.
  - (* AtCancelWrite *)
    assert (Hflag : is_closed (shared s) = true).
    { destruct (is_closed (shared s)) eqn:Hflag; [done|].
      destruct (Ho eq_refl) as [Hall _]. specialize (Hall t).
      by rewrite Hpc in Hall. }
    destruct (Hc Hflag) as (w & Hothers & Hw).
    assert (t = w) as <-.
    { destruct (decide (t = w)) as [|Hne]; [done|].
      specialize (Hothers t Hne). by rewrite Hpc in Hothers. }
    rewrite Hpc in Hw.
    split; simpl.
    + intros u. destruct (decide (u = t)) as [->|Hne].
      * rewrite at_pc_same. simpl. rewrite <- Hl, Hpc. done.
      * rewrite at_pc_other by done. apply Hl.
    + intros Hopen. congruence.
    + intros _. exists t. split.
      * intros u Hu. rewrite at_pc_other by done. by apply Hothers.
      * rewrite at_pc_same. tally.
  - (* AtCancelRead *)
    assert (Hflag : is_closed (shared s) = true).
    { destruct (is_closed (shared s)) eqn:Hflag; [done|].
      destruct (Ho eq_refl) as [Hall _]. specialize (Hall t).
      by rewrite Hpc in Hall. }
    destruct (Hc Hflag) as (w & Hothers & Hw).
    assert (t = w) as <-.
    { destruct (decide (t = w)) as [|Hne]; [done|].
      specialize (Hothers t Hne). by rewrite Hpc in Hothers. }
    rewrite Hpc in Hw.
    split; simpl.
    + intros u. destruct (decide (u = t)) as [->|Hne].
      * rewrite at_pc_same. simpl. rewrite <- Hl, Hpc. done.
      * rewrite at_pc_other by done. apply Hl.
    + intros Hopen. congruence.
    + intros _. exists t. split.
      * intros u Hu. rewrite at_pc_other by done. by apply Hothers.
      * rewrite at_pc_same. tally.
  - (* AtSetEvent *)
    assert (Hflag : is_closed (shared s) = true).
    { destruct (is_closed (shared s)) eqn:Hflag; [done|].
      destruct (Ho eq_refl) as [Hall _]. specialize (Hall t).
      by rewrite Hpc in Hall. }
    destruct (Hc Hflag) as (w & Hothers & Hw).
    assert (t = w) as <-.
    { destruct (decide (t = w)) as [|Hne]; [done|].
      specialize (Hothers t Hne). by rewrite Hpc in Hothers. }
    rewrite Hpc in Hw.
    split; simpl.
    + intros u. destruct (decide (u = t)) as [->|Hne].
      * rewrite at_pc_same. simpl. rewrite <- Hl, Hpc. done.
      * rewrite at_pc_other by done. apply Hl.
    + intros Hopen. congruence.
    + intros _. exists t. split.
      * intros u Hu. rewrite at_pc_other by done. by apply Hothers.
      * rewrite at_pc_same. tally.
  - (* Done *)
    exact Hinv.
Qed.

Lemma close_inv_run (schedule : list nat) :
  is_closed c0 = false ->
  close_inv c0 (close_run schedule (before_close c0)).
Proof.
  intros Hopen. unfold close_run.
  induction schedule as [|t schedule IH] using rev_ind.
  - by apply close_inv_start.
  - rewrite foldl_app. simpl. by apply close_inv_step.
Qed.

(** At every moment each effect has happened at most once. *)
Lemma close_inv_at_most_once (s : threads) :
  close_inv c0 s ->
  exists a b d e : nat,
    gained c0 (shared s) a b d e
    /\ (a <= 1)%nat /\ (b <= 1)%nat /\ (d <= 1)%nat /\ (e <= 1)%nat.
Proof.
  intros [_ Ho Hc]. destruct (is_closed (shared s)) eqn:Hflag.
  - destruct (Hc eq_refl) as (w & _ & Hw).
    destruct (pc s w); try done; simpl in Hw.
    + exists 1%nat, 0%nat, 0%nat, 0%nat. split; [done|lia].
    + exists 1%nat, 1%nat, 0%nat, 0%nat. split; [done|lia].
    + exists 1%nat, 1%nat, 1%nat, 0%nat. split; [done|lia].
    + exists 1%nat, 1%nat, 1%nat, 1%nat. split; [done|lia].
  - destruct (Ho eq_refl) as [_ Hg].
    exists 0%nat, 0%nat, 0%nat, 0%nat. split; [done|lia].
Qed.

(** Once every call that was made has returned, each has happened
    exactly once. *)
Lemma close_inv_exactly_once (s : threads) :
  close_inv c0 s ->
  (forall t, pc s t = AtEntry \/ pc s t = Done) ->
  (exists t, pc s t = Done) ->
  is_closed (shared s) = true /\ gained c0 (shared s) 1 1 1 1.
Proof.
  intros [_ Ho Hc] Hall [t Ht].
  destruct (is_closed (shared s)) eqn:Hflag.
  - split; [done|]. destruct (Hc eq_refl) as (w & _ & Hw).
    by destruct (Hall w) as [Hp|Hp]; rewrite Hp in Hw.
  - destruct (Ho eq_refl) as [Hnot _]. specialize (Hnot t).
    by rewrite Ht in Hnot.
Qed.

End CloseThreads.

(** One thread running alone through [close] does what [close] does. *)
Lemma close_alone (c : conn) :
  shared (close_run (replicate 7 0%nat) (before_close c)) = close c.
Proof.
  destruct c as [os ins closed ev sub q snt io ww rw log].
  destruct closed; reflexivity.
Qed.

(** C4. On a connection that is not closed yet: a first [close] sets the
    flag, cancels the write watcher and the read watcher once each and
    sets the event, and a second [close] after it only enters and
    returns.  When any number of threads call [close] in any
    interleaving, the test and the set of the flag are made by the
    thread that holds the lock, at every moment the flag has been set and
    each watcher cancelled at most once, and once every call has
    returned, exactly once.  No step of [close] raises. *)
Theorem close_is_idempotent (c : conn) :
  is_closed c = false ->
  (gained c (close c) 1 1 1 1
   /\ is_closed (close c) = true
   /\ close (close c) = record CallClose (close c))
  /\ forall schedule : list nat,
       let s := close_run schedule (before_close c) in
       (forall t, holds_lock (pc s t) = true <-> lock s = Some t)
       /\ (exists a b d e : nat,
              gained c (shared s) a b d e
              /\ (a <= 1)%nat /\ (b <= 1)%nat /\ (d <= 1)%nat
              /\ (e <= 1)%nat)
       /\ ((forall t, pc s t = AtEntry \/ pc s t = Done) ->
           (exists t, pc s t = Done) ->
           is_closed (shared s) = true /\ gained c (shared s) 1 1 1 1).
Proof.
  intros Hopen. split.
  - unfold close at 1 2. simpl. rewrite Hopen. repeat split.
    1-4: unfold close_set_connected, close_cancel_read, close_cancel_write,
      close_set_closed; simpl; rewrite ?count_app; unfold count; simpl; lia.
    unfold close. simpl. by rewrite Hopen.
  - intros schedule s. pose proof (close_inv_run c schedule Hopen) as Hinv.
    split; [apply Hinv|]. split.
    + by apply close_inv_at_most_once.
    + by apply close_inv_exactly_once.
Qed.

Lemma close_is_idempotent_witness :
  let c := new_connection 4 4096 in
  let s := close_run [0; 1; 0; 1; 0; 0; 1; 0; 1; 0; 0]%nat (before_close c) in
  is_closed c = false
  /\ calls (shared s)
     = [CallClose; CallClose; SetClosed; CancelWrite; CancelRead;
        SetConnected]
  /\ is_closed (shared s) = true
  /\ gained c (shared s) 1 1 1 1.
Proof.
  intros c s.
  split; [reflexivity|]. split; [reflexivity|].
  apply (proj2 (proj2 (proj2 (close_is_idempotent c eq_refl)
                               [0; 1; 0; 1; 0; 0; 1; 0; 1; 0; 0]%nat))).
  - intros t. simpl. unfold at_pc.
    destruct (decide (t = 0%nat)); [by right|].
    destruct (decide (t = 1%nat)); [by right|]. by left.
  - exists 0%nat. reflexivity.
Defined.

(** ** The shared loop *)

(** In the process that recorded its pid, an initialized class is left as
    it is: connections go on sharing the one loop and the one thread. *)
Lemma initialize_reactor_again (e : env) (cls : reactor) (l : nat)
    (th : thread) :
  _pid cls = getpid e ->
  _loop cls = Some l ->
  _loop_thread cls = Some th ->
  initialize_reactor e cls = (cls, Return ()).
Proof.
  intros Hpid Hloop Hth. unfold initialize_reactor.
  rewrite bool_decide_eq_false_2 by (intros Hne; by apply Hne).
  by rewrite Hloop, Hth.
Qed.

(** A thread that is recorded is never replaced, whatever the process. *)
Lemma initialize_reactor_keeps_thread (e : env) (cls : reactor)
    (th : thread) :
  _loop_thread cls = Some th ->
  _loop_thread (fst (initialize_reactor e cls)) = Some th
  /\ started (fst (initialize_reactor e cls)) = started cls.
Proof.
  intros Hth. unfold initialize_reactor.
  repeat case_match; simplify_eq; simpl in *; try done;
    repeat case_match; simplify_eq; simpl in *; by rewrite ?Hth in *.
Qed.


(** C3, at the input where the code departs from it.  The class is
    imported and initialized in process 100: loop 1, and a thread that
    runs it.  In a forked child, process 200, [initialize_reactor] takes
    the child's loop 2 but starts no thread: the recorded thread is still
    the parent's, which runs loop 1 in process 100, and the recorded pid
    is still 100. *)
Theorem initialize_reactor_after_fork :
  let parent :=
    fst (initialize_reactor {| getpid := 100; get_event_loop := Return 1%nat |}
                            (imported 100)) in
  let child :=
    fst (initialize_reactor {| getpid := 200; get_event_loop := Return 2%nat |}
                            parent) in
  parent = {| _loop := Some 1%nat; _pid := 100;
              _loop_thread := Some {| target := 1; started_in := 100 |};
              started := [ {| target := 1; started_in := 100 |} ] |}
  /\ fst (initialize_reactor
            {| getpid := 100; get_event_loop := Return 1%nat |} parent)
     = parent
  /\ _loop child = Some 2%nat
  /\ _loop_thread child = Some {| target := 1; started_in := 100 |}
  /\ started child = started parent
  /\ _pid child = 100.
Proof. repeat split. Qed.

(** ** The timer *)

(** C8. On every timer that [create_timer] returns, reading [end] and
    calling [finish] raise [NotImplementedError]; [cancel] returns, the
    pending handle is cancelled by it, and cancelling again returns
    too. *)
Theorem timer_end_finish_raise (timeout : Z) (callback : nat)
    (cls : reactor) (t : AsyncioTimer.timer) :
  create_timer timeout callback cls = Return t ->
  AsyncioTimer.end_ t = Raise NotImplementedError
  /\ AsyncioTimer.finish t = Raise NotImplementedError
  /\ exists t' : AsyncioTimer.timer,
       AsyncioTimer.cancel t = Return t'
       /\ AsyncioTimer.state (AsyncioTimer._handle t')
          = AsyncioTimer.FutureCancelled
       /\ AsyncioTimer.cancel t' = Return t'.
Proof.
  unfold create_timer, AsyncioTimer.__init__,
    AsyncioTimer.run_coroutine_threadsafe.
  destruct (_loop cls) as [l|]; simpl; [|done].
  intros [= <-]. repeat split. eexists. repeat split.
Qed.

Lemma timer_end_finish_raise_witness :
  let cls := {| _loop := Some 1%nat; _pid := 100;
                _loop_thread := Some {| target := 1; started_in := 100 |};
                started := [ {| target := 1; started_in := 100 |} ] |} in
  exists t : AsyncioTimer.timer,
    create_timer 5 7 cls = Return t
    /\ AsyncioTimer.end_ t = Raise NotImplementedError
    /\ AsyncioTimer.finish t = Raise NotImplementedError.
Proof.
  intros cls. eexists. split; [reflexivity|].
  pose proof (timer_end_finish_raise 5 7 cls _ eq_refl) as (He & Hf & _).
  split; [exact He|exact Hf].
Defined.

(** A handle that is running or has finished is left alone by
    [cancel], which returns all the same. *)
Lemma timer_cancel_returns (t : AsyncioTimer.timer) :
  exists t' : AsyncioTimer.timer, AsyncioTimer.cancel t = Return t'.
Proof. by eexists. Qed.





(** C10. Compared with an object that has no [_handle], a timer's
    [__lt__] raises [TypeError]; for two timers it is the comparison of
    their handles, whose value it returns and whose exception, other than
    [AttributeError], it lets through. *)
Theorem lt_without_handle
    (handle_lt : AsyncioTimer.value -> AsyncioTimer.value
                 -> result AsyncioTimer.value) :
  (forall self other : AsyncioTimer.object,
      AsyncioTimer.attrs other !! "_handle"%string = None ->
      AsyncioTimer.__lt__ handle_lt self other = Raise TypeError)
  /\ (forall t1 t2 : AsyncioTimer.timer,
         handle_lt (AsyncioTimer.VFuture (AsyncioTimer._handle t1))
                   (AsyncioTimer.VFuture (AsyncioTimer._handle t2))
         <> Raise AttributeError ->
         AsyncioTimer.__lt__ handle_lt (AsyncioTimer.as_object t1)
                             (AsyncioTimer.as_object t2)
         = handle_lt (AsyncioTimer.VFuture (AsyncioTimer._handle t1))
                     (AsyncioTimer.VFuture (AsyncioTimer._handle t2))).
Proof.
  split.
  - intros self other Hnone.
    unfold AsyncioTimer.__lt__, AsyncioTimer.getattr. rewrite Hnone.
    by destruct (AsyncioTimer.attrs self !! "_handle"%string).
  - intros t1 t2 Hne.
    unfold AsyncioTimer.__lt__, AsyncioTimer.getattr, AsyncioTimer.as_object.
    simpl. rewrite !lookup_singleton_eq. simpl.
    destruct (handle_lt _ _) as [v|x]; [done|]. by destruct x.
Qed.

Lemma lt_without_handle_witness :
  let by_loop := fun a b : AsyncioTimer.value =>
    match a, b with
    | AsyncioTimer.VFuture f, AsyncioTimer.VFuture g =>
        Return (AsyncioTimer.VBool
                  (AsyncioTimer.on_loop f <? AsyncioTimer.on_loop g)%nat)
    | _, _ => Raise TypeError
    end in
  let t := fun l : nat =>
    {| AsyncioTimer._handle :=
         {| AsyncioTimer.coro := AsyncioTimer._call_delayed_coro 5 7;
            AsyncioTimer.on_loop := l;
            AsyncioTimer.state := AsyncioTimer.Pending |} |} in
  AsyncioTimer.__lt__ by_loop (AsyncioTimer.as_object (t 1%nat))
                      {| AsyncioTimer.attrs := ∅ |}
  = Raise TypeError
  /\ AsyncioTimer.__lt__ by_loop (AsyncioTimer.as_object (t 1%nat))
                         (AsyncioTimer.as_object (t 2%nat))
     = Return (AsyncioTimer.VBool true).
Proof.
  intros by_loop t. split.
  - apply (proj1 (lt_without_handle by_loop)). apply lookup_empty.
  - rewrite (proj2 (lt_without_handle by_loop) (t 1%nat) (t 2%nat));
      [reflexivity|discriminate].
Defined.

(** * Further properties of the module *)

(** ** The two loops *)

(** X1. A socket error raised by the receive, other than the two TLS
    conditions, makes the read loop call [defunct] with it once and
    return: the error does not leave the coroutine, and in everything
    that follows the loop stays returned and receives nothing more. *)
Theorem recv_error_defuncts_once (K : Connection) (c : conn) (e : exn) :
  _read_watcher c = Active ->
  is_socket_error e = true ->
  is_ssl_want e = false ->
  let c' := handle_read (RecvRaise e) c in
  count (Defunct e) (calls c') = S (count (Defunct e) (calls c))
  /\ recv_calls c' = S (recv_calls c)
  /\ _read_watcher c' = Returned
  /\ forall evs : list event,
       _read_watcher (run evs c') = Returned
       /\ recv_calls (run evs c') = recv_calls c'
       /\ forall o, handle_read o (run evs c') = run evs c'.
Proof.
  intros Ha He Hw c'.
  assert (Hc' : c' = set_read_watcher Returned (defunct e (record Recv c))).
  { subst c'. unfold handle_read. by rewrite Ha, Hw, He. }
  clearbody c'. subst c'. unfold recv_calls. simpl.
  split; [|split; [|split; [done|]]].
  - rewrite !count_app. unfold count at 2 3.
    rewrite !filter_cons, !filter_nil.
    repeat case_decide; try done. simpl. lia.
  - rewrite !count_app. unfold count at 2 3.
    rewrite !filter_cons, !filter_nil.
    repeat case_decide; try done. simpl. lia.
  - intros evs.
    destruct (read_done_run evs
                (set_read_watcher Returned (defunct e (record Recv c))))
      as [Hr Hn]; [done|].
    split; [exact Hr|]. split; [exact Hn|].
    intros o. unfold handle_read. by rewrite Hr.
Qed.

Lemma recv_error_defuncts_once_witness :
  let K := {| process_io_buffer := fun io => io |} in
  let c' := handle_read (RecvRaise (SocketError 104))
                        (new_connection 4 4096) in
  count (Defunct (SocketError 104)) (calls c') = 1%nat
  /\ _read_watcher c' = Returned.
Proof.
  intros K c'.
  pose proof (recv_error_defuncts_once K (new_connection 4 4096)
                (SocketError 104) eq_refl eq_refl eq_refl)
    as (Hc & _ & Hr & _).
  split; [exact Hc|exact Hr].
Defined.

(** After a write of bytes that are not empty the position of the
    stream is not zero. *)
Lemma tell_after_write (buf : bytes) (io : BytesIO) :
  buf <> [] -> tell (write buf io) <> 0%nat.
Proof.
  intros Hbuf. destruct buf as [|b buf]; [done|]. simpl. lia.
Qed.

(** X2. A receive of bytes that are not empty always reaches
    [process_io_buffer] and never the branch that closes: wherever the
    stream stood before, its position after the write is not zero, so
    that the test of the loop holds and the call that follows the receive
    is the one of [process_io_buffer]. *)
Theorem recv_data_reaches_decoder (K : Connection) (c : conn) (buf : bytes) :
  _read_watcher c = Active ->
  buf <> [] ->
  tell (write buf (_iobuf c)) <> 0%nat
  /\ exists more : list call,
       calls (handle_read (RecvData buf) c)
       = calls c ++ Recv :: ProcessIoBuffer :: more.
Proof.
  intros Ha Hbuf. split; [by apply tell_after_write|].
  exists []. unfold handle_read. rewrite Ha. simpl.
  rewrite bool_decide_eq_true_2 by done.
  rewrite bool_decide_eq_true_2 by (by apply tell_after_write).
  simpl. by rewrite <- app_assoc.
Qed.

Lemma recv_data_reaches_decoder_witness :
  let K := {| process_io_buffer := fun _ => {| getvalue := []; tell := 0 |} |} in
  tell (write ["x"%byte] (_iobuf (new_connection 4 4096))) <> 0%nat
  /\ exists more : list call,
       calls (handle_read (RecvData ["x"%byte]) (new_connection 4 4096))
       = calls (new_connection 4 4096) ++ Recv :: ProcessIoBuffer :: more.
Proof.
  intros K.
  exact (recv_data_reaches_decoder K (new_connection 4 4096) ["x"%byte]
           eq_refl ltac:(discriminate)).
Defined.

(** X3. An exception that is not a socket error ends the loop it is
    raised in with that exception: [defunct] is not called, nothing is
    closed or cancelled, and the other loop is as it was. *)
Theorem other_exception_ends_loop_unreported (K : Connection) (c : conn)
    (e : exn) :
  is_socket_error e = false ->
  (forall (msg : bytes) (q : list bytes) (n : nat),
      _write_watcher c = Active ->
      _write_queue c = msg :: q ->
      msg <> [] ->
      let c' := handle_write (SendRaise n e) c in
      _write_watcher c' = Failed e
      /\ calls c' = calls c ++ [Dequeue msg; SendAll msg]
      /\ is_closed c' = is_closed c
      /\ _read_watcher c' = _read_watcher c)
  /\ (_read_watcher c = Active ->
      let c' := handle_read (RecvRaise e) c in
      _read_watcher c' = Failed e
      /\ calls c' = calls c ++ [Recv]
      /\ is_closed c' = is_closed c
      /\ _iobuf c' = _iobuf c
      /\ _write_watcher c' = _write_watcher c).
Proof.
  intros He. split.
  - intros msg q n Ha Hq Hmsg c'. subst c'. unfold handle_write.
    rewrite Ha, Hq. destruct msg as [|b m]; [done|]. rewrite He. simpl.
    repeat split. by rewrite <- app_assoc.
  - intros Ha c'. subst c'. unfold handle_read. rewrite Ha.
    assert (is_ssl_want e = false) as -> by (by destruct e).
    rewrite He. by simpl.
Qed.

Lemma other_exception_ends_loop_unreported_witness :
  let K := {| process_io_buffer := fun io => io |} in
  let c := loop_puts (_push_chunk ["A"%byte] (new_connection 4 4096)) in
  _write_watcher (handle_write (SendRaise 0 CancelledError) c)
  = Failed CancelledError
  /\ _read_watcher (handle_read (RecvRaise RuntimeError) c)
     = Failed RuntimeError.
Proof.
  intros K c. split.
  - exact (proj1 (proj1 (other_exception_ends_loop_unreported
                           K c CancelledError eq_refl)
                        ["A"%byte] [] 0%nat eq_refl eq_refl
                        ltac:(discriminate))).
  - exact (proj1 (proj2 (other_exception_ends_loop_unreported
                           K c RuntimeError eq_refl) eq_refl)).
Defined.

(** ** push *)

(** The slices that [push] cuts, by their number. *)
Lemma range_chunks (data : bytes) (w : Z) (r : list Z) :
  0 < w ->
  range 0 (Z.of_nat (length data)) w = Return r ->
  map (fun i => slice data i (i + w)) r
  = map (fun k : nat => take (Z.to_nat w) (drop (k * Z.to_nat w) data))
        (seq 0 (Z.to_nat (range_length 0 (Z.of_nat (length data)) w))).
Proof.
  intros Hw. unfold range. destruct (Z.eqb_spec w 0); [lia|].
  intros [= <-]. rewrite map_map. apply map_ext. intros k.
  rewrite slice_take_drop by nia. f_equal; [nia|f_equal; nia].
Qed.

Lemma range_length_positive (n w : Z) :
  0 < w -> 0 < n -> range_length 0 n w = 1 + (n - 1) / w.
Proof.
  intros Hw Hn. unfold range_length.
  destruct (Z.ltb_spec 0 w); [|lia]. destruct (Z.ltb_spec 0 n); [|lia].
  simpl. f_equal. f_equal. lia.
Qed.

(** X4. For a positive [out_buffer_size]: a payload that fits is
    submitted as it is, as one chunk; a longer one is cut into the least
    number of chunks, none of them empty and all but the last of exactly
    [out_buffer_size] bytes. *)
Theorem push_chunk_shape (c : conn) (data : bytes) :
  0 < out_buffer_size c ->
  (Z.of_nat (length data) <= out_buffer_size c ->
   push data c = Return (_push_chunk data c))
  /\ (out_buffer_size c < Z.of_nat (length data) ->
      exists chunks : list bytes,
        push data c = Return (set_submitted (submitted c ++ chunks) c)
        /\ Z.of_nat (length chunks)
           = (Z.of_nat (length data) + out_buffer_size c - 1)
             / out_buffer_size c
        /\ forall (k : nat) (ch : bytes),
             chunks !! k = Some ch ->
             ch <> []
             /\ ((S k < length chunks)%nat ->
                 Z.of_nat (length ch) = out_buffer_size c)).
Proof.
  intros Hw. set (w := out_buffer_size c) in *.
  set (n := Z.of_nat (length data)). split.
  - intros Hfit. unfold push. fold w. fold n.
    destruct (Z.gtb_spec n w); [lia|done].
  - intros Hlong. unfold push. fold w. fold n.
    destruct (Z.gtb_spec n w); [|lia].
    destruct (range 0 n w) as [r|x] eqn:Hr.
    2: { unfold range in Hr. destruct (Z.eqb_spec w 0); [lia|done]. }
    exists (map (fun i => slice data i (i + w)) r).
    split; [simpl; by rewrite push_chunks_foldl|].
    rewrite (range_chunks data w r Hw Hr). fold n.
    rewrite range_length_positive by lia.
    pose proof (Z.div_mod (n - 1) w ltac:(lia)) as Hdiv.
    pose proof (Z.mod_pos_bound (n - 1) w ltac:(lia)) as Hmod.
    assert (Hq : 0 <= (n - 1) / w) by (apply Z.div_pos; lia).
    split.
    + rewrite length_map, length_seq.
      replace (n + w - 1) with (n - 1 + 1 * w) by lia.
      rewrite Z.div_add by lia. lia.
    + intros k ch Hk. rewrite length_map, length_seq.
      rewrite list_lookup_fmap in Hk.
      destruct (seq 0 (Z.to_nat (1 + (n - 1) / w)) !! k) as [j|] eqn:Hj;
        [|done].
      apply lookup_seq in Hj as [-> Hlt]. simpl in Hk. injection Hk as <-.
      assert (Hlen : length (take (Z.to_nat w) (drop (k * Z.to_nat w) data))
                     = Nat.min (Z.to_nat w) (length data - k * Z.to_nat w)).
      { by rewrite length_take, length_drop. }
      assert (Hkw : Z.of_nat k * w <= n - 1) by nia.
      split.
      * intros Hnil. rewrite Hnil in Hlen. simpl in Hlen. subst n. nia.
      * intros Hnext. rewrite Hlen.
        assert (Z.of_nat (S k) * w <= n - 1) by nia. subst n. nia.
Qed.

Lemma push_chunk_shape_witness :
  let c := new_connection 4 4096 in
  0 < out_buffer_size c
  /\ push (replicate 3 "A"%byte) c
     = Return (_push_chunk (replicate 3 "A"%byte) c)
  /\ exists chunks : list bytes,
       push (replicate 9 "A"%byte) c
       = Return (set_submitted (submitted c ++ chunks) c)
       /\ Z.of_nat (length chunks) = 3.
Proof.
  intros c. split; [reflexivity|]. split.
  - apply (proj1 (push_chunk_shape c (replicate 3 "A"%byte) eq_refl)).
    simpl. lia.
  - destruct (proj2 (push_chunk_shape c (replicate 9 "A"%byte) eq_refl))
      as (chunks & Hp & Hl & _); [simpl; lia|].
    exists chunks. split; [exact Hp|exact Hl].
Defined.

(** X5. Without room in the buffer: with an [out_buffer_size] of zero, a
    payload that is not empty makes [push] raise [ValueError] with
    nothing submitted; with a negative one [push] returns with nothing
    submitted, whatever the payload. *)
Theorem push_without_room (c : conn) (data : bytes) :
  (out_buffer_size c = 0 -> data <> [] -> push data c = Raise ValueError)
  /\ (out_buffer_size c < 0 -> push data c = Return c).
Proof.
  split.
  - intros Hz Hdata. unfold push. rewrite Hz.
    destruct (Z.gtb_spec (Z.of_nat (length data)) 0) as [_|Hle]; [done|].
    destruct data; [done|]. simpl in Hle. lia.
  - intros Hneg. unfold push.
    destruct (Z.gtb_spec (Z.of_nat (length data)) (out_buffer_size c));
      [|lia].
    unfold range, range_length.
    destruct (Z.eqb_spec (out_buffer_size c) 0); [lia|].
    destruct (Z.ltb_spec 0 (out_buffer_size c)); [lia|].
    destruct (Z.ltb_spec (Z.of_nat (length data)) 0); [lia|].
    by rewrite andb_false_r.
Qed.

Lemma push_without_room_witness :
  push ["A"%byte] (new_connection 0 4096) = Raise ValueError
  /\ push ["A"%byte] (new_connection (-1) 4096)
     = Return (new_connection (-1) 4096).
Proof.
  split.
  - apply (proj1 (push_without_room (new_connection 0 4096) ["A"%byte]));
      [reflexivity|discriminate].
  - apply (proj2 (push_without_room (new_connection (-1) 4096) ["A"%byte])).
    reflexivity.
Defined.

(** ** The write loop and the queue *)

(** X6. An empty payload goes through unnoticed: where zero bytes fit
    the buffer, pushing it, letting the loop queue it and running the
    write loop on it leaves one dequeue in the log and nothing else; the
    socket is not used, so that no state of the socket ends the loop. *)
Theorem empty_push_is_skipped (K : Connection) (c : conn)
    (o : send_outcome) :
  0 <= out_buffer_size c ->
  _write_watcher c = Active ->
  submitted c = [] ->
  _write_queue c = [] ->
  run [Push []; LoopPut; WriteTurn o] c = record (Dequeue []) c.
Proof.
  intros Hw Ha Hs Hq.
  destruct c as [os ins closed ev sub q snt io ww rw log].
  simpl in *. subst. unfold run, push. simpl.
  destruct (Z.gtb_spec (Z.of_nat 0) os); [simpl in *; lia|]. reflexivity.
Qed.

Lemma empty_push_is_skipped_witness :
  let K := {| process_io_buffer := fun io => io |} in
  run [Push []; LoopPut; WriteTurn (SendRaise 0 (SocketError 32))]
      (new_connection 4 4096)
  = record (Dequeue []) (new_connection 4 4096).
Proof.
  intros K.
  apply (empty_push_is_skipped K (new_connection 4 4096)); [simpl; lia|done..].
Defined.

Lemma write_queue_in_order (q : list bytes) (c : conn) :
  _write_watcher c = Active ->
  _write_queue c = q ->
  let c' := foldl (fun c _ => handle_write SendOk c) c q in
  _write_queue c' = []
  /\ _write_watcher c' = Active
  /\ submitted c' = submitted c
  /\ calls c' = calls c ++ concat (map write_log q).
Proof.
  revert c. induction q as [|msg q IH]; intros c Ha Hq; simpl.
  - repeat split; try done. by rewrite app_nil_r.
  - assert (Hstep : _write_watcher (handle_write SendOk c) = Active
                    /\ _write_queue (handle_write SendOk c) = q
                    /\ submitted (handle_write SendOk c) = submitted c
                    /\ calls (handle_write SendOk c)
                       = calls c ++ write_log msg).
    { unfold handle_write. rewrite Ha, Hq.
      destruct msg; simpl; repeat split; by rewrite <- ?app_assoc. }
    destruct Hstep as (Ha' & Hq' & Hs' & Hc').
    destruct (IH _ Ha' Hq') as (H1 & H2 & H3 & H4).
    repeat split; try done; [congruence|].
    by rewrite H4, Hc', <- app_assoc.
Qed.

(** X7. The write loop takes the queue first in, first out: run against
    a socket that accepts everything until nothing is left, it has
    dequeued every submitted and queued chunk in order, the queued ones
    first, and sent each one that is not empty right after its dequeue;
    the queue is empty and the loop still runs. *)
Theorem drain_is_fifo (c : conn) :
  _write_watcher c = Active ->
  calls (drain c)
  = calls c ++ concat (map write_log (_write_queue c ++ submitted c))
  /\ _write_queue (drain c) = []
  /\ submitted (drain c) = []
  /\ _write_watcher (drain c) = Active.
Proof.
  intros Ha. unfold drain.
  destruct (write_queue_in_order (_write_queue (loop_puts c)) (loop_puts c))
    as (Hq & Hw & Hs & Hc); [done|done|].
  repeat split; done.
Qed.

Lemma drain_is_fifo_witness :
  let c := _push_chunk ["B"%byte]
             (loop_puts (_push_chunk [] (_push_chunk ["A"%byte]
                                           (new_connection 4 4096)))) in
  _write_watcher c = Active
  /\ calls (drain c)
     = [ Dequeue ["A"%byte]; SendAll ["A"%byte]; Dequeue [];
         Dequeue ["B"%byte]; SendAll ["B"%byte] ].
Proof.
  intros c. split; [reflexivity|].
  exact (proj1 (drain_is_fifo c eq_refl)).
Defined.

(** ** close, again *)

Lemma entries_only (n : nat) (c : conn) :
  let c' := Nat.iter n (record CallClose) c in
  is_closed c' = is_closed c
  /\ _write_watcher c' = _write_watcher c
  /\ _read_watcher c' = _read_watcher c
  /\ connected_event c' = connected_event c
  /\ calls c' = calls c ++ replicate n CallClose.
Proof.
  induction n as [|n (H1 & H2 & H3 & H4 & H5)]; simpl.
  - repeat split. by rewrite app_nil_r.
  - repeat split; try done. rewrite H5, <- app_assoc. f_equal.
    symmetry. apply replicate_cons_app.
Qed.

(** X8. On a connection whose flag is already set, calls of [close] by
    any number of threads in any interleaving leave nothing but their
    entries in the log: no watcher is cancelled, not even one that still
    runs, and the event is not set. *)
Theorem close_of_closed_does_nothing (c : conn) (schedule : list nat) :
  is_closed c = true ->
  let s := close_run schedule (before_close c) in
  (forall t, found_closed (pc s t) = true)
  /\ exists n : nat,
       shared s = Nat.iter n (record CallClose) c
       /\ (n <= length schedule)%nat
       /\ _write_watcher (shared s) = _write_watcher c
       /\ _read_watcher (shared s) = _read_watcher c
       /\ connected_event (shared s) = connected_event c
       /\ calls (shared s) = calls c ++ replicate n CallClose.
Proof.
  intros Hclosed s.
  assert (Hinv : (forall t, found_closed (pc s t) = true)
                 /\ exists n : nat,
                      shared s = Nat.iter n (record CallClose) c
                      /\ (n <= length schedule)%nat).
  { subst s. unfold close_run.
    induction schedule as [|t schedule (Hpc & n & Hs & Hn)] using rev_ind.
    - split; [done|]. by exists 0%nat.
    - rewrite foldl_app, length_app. simpl.
      set (s := foldl (fun s t => close_step t s) (before_close c) schedule)
        in *.
      assert (Hflag : is_closed (shared s) = true).
      { rewrite Hs. by rewrite (proj1 (entries_only n c)). }
      unfold close_step. pose proof (Hpc t) as Ht.
      destruct (pc s t) eqn:Hpt; try done; simpl.
      + split.
        * intros u. unfold at_pc. case_decide; [done|apply Hpc].
        * exists (S n). simpl. rewrite Hs. split; [done|lia].
      + destruct (lock s); simpl.
        * split; [done|]. exists n. split; [done|lia].
        * split.
          -- intros u. unfold at_pc. case_decide; [done|apply Hpc].
          -- exists n. split; [done|lia].
      + rewrite Hflag. simpl. split.
        * intros u. unfold at_pc. case_decide; [done|apply Hpc].
        * exists n. split; [done|lia].
      + split; [done|]. exists n. split; [done|lia]. }
  destruct Hinv as (Hpc & n & Hs & Hn). split; [done|].
  exists n. rewrite Hs.
  destruct (entries_only n c) as (_ & H2 & H3 & H4 & H5).
  by repeat split.
Qed.

Lemma close_of_closed_does_nothing_witness :
  let c := set_is_closed true (new_connection 4 4096) in
  let s := close_run [0; 1; 0; 1; 0; 1]%nat (before_close c) in
  is_closed c = true
  /\ _write_watcher (shared s) = Active
  /\ calls (shared s) = [CallClose; CallClose].
Proof.
  intros c s. split; [reflexivity|].
  destruct (close_of_closed_does_nothing c [0; 1; 0; 1; 0; 1]%nat eq_refl)
    as (_ & n & _ & _ & Hw & _).
  split; [exact Hw|reflexivity].
Defined.

Lemma flags_step (K : Connection) (ev : event) (c : conn) :
  (is_closed c = true -> is_closed (step ev c) = true)
  /\ (connected_event c = true -> connected_event (step ev c) = true).
Proof.
  destruct ev as [data| |o|o| |]; simpl.
  - destruct (push_result data c) as [[e ->]|[chunks ->]]; by simpl.
  - unfold loop_put. by destruct (submitted c).
  - unfold handle_write, defunct. by repeat case_match.
  - unfold handle_read, close, close_set_connected, close_cancel_read,
      close_cancel_write, close_set_closed, defunct.
    repeat case_match; simpl in *; split; (done || congruence).
  - unfold resume_read. by destruct (_read_watcher c).
  - unfold close, close_set_connected, close_cancel_read,
      close_cancel_write, close_set_closed.
    repeat case_match; simpl in *; split; (done || congruence).
Qed.

(** X9. Nothing reopens a connection: through every history of pushes,
    loop turns, iterations of the two loops and closes, a closed flag
    stays set, and so does the connected event. *)
Theorem closed_stays_closed (K : Connection) (evs : list event) (c : conn) :
  (is_closed c = true -> is_closed (run evs c) = true)
  /\ (connected_event c = true -> connected_event (run evs c) = true).
Proof.
  induction evs as [|ev evs [IH1 IH2]] using rev_ind; [done|].
  rewrite run_snoc.
  destruct (flags_step K ev (run evs c)) as [H1 H2]. split; auto.
Qed.

Lemma closed_stays_closed_witness :
  let K := {| process_io_buffer := fun io => io |} in
  let c := handle_read (RecvData []) (new_connection 4 4096) in
  is_closed c = true
  /\ is_closed (run [Push ["A"%byte]; LoopPut; WriteTurn SendOk;
                     ReadTurn (RecvData ["x"%byte]); CloseCall] c)
     = true.
Proof.
  intros K c. split; [reflexivity|].
  apply (proj1 (closed_stays_closed K _ c)). reflexivity.
Defined.

(** ** The shared loop, again *)

(** What a call that returns leaves behind. *)
Lemma initialize_reactor_returns (e : env) (cls cls' : reactor) :
  initialize_reactor e cls = (cls', Return ()) ->
  _pid cls' = _pid cls
  /\ exists (l : nat) (th : thread),
       _loop cls' = Some l /\ _loop_thread cls' = Some th.
Proof.
  unfold initialize_reactor.
  repeat case_match; simplify_eq; simpl in *; intros [= <-]; simpl in *;
    repeat case_match; simplify_eq; simpl in *; eauto.
Qed.

(** X10. In the process whose pid the class recorded, a call of
    [initialize_reactor] that returned is final: every later call there
    returns with the class as it is, starting no thread and not asking
    for a loop. *)
Theorem initialize_reactor_is_idempotent (e e' : env) (cls cls' : reactor) :
  initialize_reactor e cls = (cls', Return ()) ->
  _pid cls = getpid e ->
  getpid e' = getpid e ->
  initialize_reactor e' cls' = (cls', Return ()).
Proof.
  intros Hinit Hpid Hsame.
  destruct (initialize_reactor_returns e cls cls' Hinit)
    as (Hp & l & th & Hl & Ht).
  apply (initialize_reactor_again e' cls' l th); [congruence|done|done].
Qed.

Lemma initialize_reactor_is_idempotent_witness :
  let e := {| getpid := 100; get_event_loop := Return 1%nat |} in
  let e' := {| getpid := 100; get_event_loop := Raise RuntimeError |} in
  let cls' := fst (initialize_reactor e (imported 100)) in
  initialize_reactor e (imported 100) = (cls', Return ())
  /\ initialize_reactor e' cls' = (cls', Return ()).
Proof.
  intros e e' cls'. split; [reflexivity|].
  apply (initialize_reactor_is_idempotent e e' (imported 100) cls');
    reflexivity.
Defined.



(** X12. When a loop has to be fetched, because the class has none or
    because the pid differs, and [get_event_loop] raises, the exception
    leaves [initialize_reactor]: the class is left without a loop, and no
    thread is started. *)
Theorem initialize_reactor_lets_errors_through (e : env) (cls : reactor)
    (x : exn) :
  get_event_loop e = Raise x ->
  _loop cls = None \/ _pid cls <> getpid e ->
  initialize_reactor e cls = (set_loop None cls, Raise x).
Proof.
  intros Hraise Hneed. unfold initialize_reactor.
  destruct (bool_decide (_pid cls <> getpid e)) eqn:Hpid; simpl.
  - by rewrite Hraise.
  - destruct Hneed as [Hnone|Hne].
    + rewrite Hnone, Hraise. destruct cls. simpl in *. by subst.
    + apply bool_decide_eq_false_1 in Hpid. done.
Qed.

Lemma initialize_reactor_lets_errors_through_witness :
  initialize_reactor {| getpid := 100; get_event_loop := Raise RuntimeError |}
                     (imported 100)
  = (imported 100, Raise RuntimeError).
Proof.
  apply (initialize_reactor_lets_errors_through
           {| getpid := 100; get_event_loop := Raise RuntimeError |}
           (imported 100) RuntimeError eq_refl (or_introl eq_refl)).
Defined.

(** ** The timer, again *)

(** X13. [__lt__] never raises [AttributeError], whatever the two
    objects and the comparison of the handles; and it returns a value only
    when both objects have a [_handle] and the comparison of the two
    returned that value. *)
Theorem lt_never_attribute_error
    (handle_lt : AsyncioTimer.value -> AsyncioTimer.value
                 -> result AsyncioTimer.value)
    (self other : AsyncioTimer.object) :
  AsyncioTimer.__lt__ handle_lt self other <> Raise AttributeError
  /\ forall v : AsyncioTimer.value,
       AsyncioTimer.__lt__ handle_lt self other = Return v ->
       exists a b : AsyncioTimer.value,
         AsyncioTimer.attrs self !! "_handle"%string = Some a
         /\ AsyncioTimer.attrs other !! "_handle"%string = Some b
         /\ handle_lt a b = Return v.
Proof.
  unfold AsyncioTimer.__lt__, AsyncioTimer.getattr.
  destruct (AsyncioTimer.attrs self !! "_handle"%string) as [a|];
    simpl; [|by split].
  destruct (AsyncioTimer.attrs other !! "_handle"%string) as [b|];
    simpl; [|by split].
  destruct (handle_lt a b) as [v|x] eqn:Hlt.
  - split; [done|]. intros v' [= <-]. eauto.
  - destruct x; by split.
Qed.

Lemma lt_never_attribute_error_witness :
  let same := fun _ _ : AsyncioTimer.value =>
    Return (AsyncioTimer.VBool false) in
  let o := {| AsyncioTimer.attrs :=
                {[ "_handle"%string := AsyncioTimer.VInt 3 ]} |} in
  AsyncioTimer.__lt__ same o o = Return (AsyncioTimer.VBool false)
  /\ exists a b : AsyncioTimer.value,
       AsyncioTimer.attrs o !! "_handle"%string = Some a
       /\ AsyncioTimer.attrs o !! "_handle"%string = Some b
       /\ same a b = Return (AsyncioTimer.VBool false).
Proof.
  intros same o.
  assert (Hlt : AsyncioTimer.__lt__ same o o
                = Return (AsyncioTimer.VBool false)).
  { unfold AsyncioTimer.__lt__, AsyncioTimer.getattr, o. simpl.
    by rewrite lookup_singleton_eq. }
  split; [exact Hlt|].
  exact (proj2 (lt_never_attribute_error same o o) _ Hlt).
Defined.

(** ** __init__ *)

(** X14. A connection cannot be made while the class has no loop: when
    the socket connects, the construction raises at what comes next,
    with the exception of [get_event_loop] if the queue, given no loop,
    asks for one in vain, and with [AttributeError] from the submission
    of the read loop otherwise; [_send_options_message] has no part in
    it.  An exception of [_connect_socket] leaves the construction as it
    is.  With a loop and a socket that connects, the options message is
    sent on a connection that is open, has both loops running and nothing
    queued or sent, and the construction ends as that sending ends;
    [get_event_loop] is not asked. *)
Theorem init_needs_loop (cls : reactor) (e : env) (b : base) :
  (_loop cls = None ->
   _connect_socket b = Return () ->
   __init__ cls e b
   = match get_event_loop e with
     | Raise x => Raise x
     | Return _ => Raise AttributeError
     end)
  /\ (forall x : exn,
         _connect_socket b = Raise x -> __init__ cls e b = Raise x)
  /\ (forall l : nat,
         _loop cls = Some l ->
         _connect_socket b = Return () ->
         __init__ cls e b
         = _send_options_message b
             (new_connection (base_out_buffer_size b)
                             (base_in_buffer_size b))).
Proof.
  unfold __init__. repeat split.
  - intros Hnone Hconn. rewrite Hnone, Hconn. simpl.
    by destruct (get_event_loop e).
  - intros x Hx. by rewrite Hx.
  - intros l Hl Hconn. by rewrite Hl, Hconn.
Qed.

Lemma init_needs_loop_witness :
  let b := {| _connect_socket := Return ();
              base_out_buffer_size := 4; base_in_buffer_size := 4096;
              _send_options_message := push (replicate 6 "O"%byte) |} in
  let e := {| getpid := 100; get_event_loop := Return 1%nat |} in
  let cls := fst (initialize_reactor e (imported 100)) in
  __init__ (imported 100) e b = Raise AttributeError
  /\ (c ← __init__ cls e b; mret (submitted c))
     = Return [replicate 4 "O"%byte; replicate 2 "O"%byte].
Proof.
  intros b e cls. split.
  - exact (proj1 (init_needs_loop (imported 100) e b) eq_refl eq_refl).
  - rewrite (proj2 (proj2 (init_needs_loop cls e b)) 1%nat eq_refl eq_refl).
    reflexivity.
Defined.

(** ** The two TLS conditions in the two loops *)

(** X15. [ssl.SSLWantWriteError] and [ssl.SSLWantReadError] are socket
    errors, and the write loop has no clause of its own for them: raised
    by a send they are reported to [defunct] and end the write loop,
    where the read loop, given the same exception by a receive, parks and
    goes on. *)
Theorem ssl_want_ends_write_loop (K : Connection) (c : conn) (e : exn)
    (msg : bytes) (q : list bytes) (n : nat) :
  is_ssl_want e = true ->
  _write_watcher c = Active ->
  _read_watcher c = Active ->
  _write_queue c = msg :: q ->
  msg <> [] ->
  (_write_watcher (handle_write (SendRaise n e) c) = Returned
   /\ calls (handle_write (SendRaise n e) c)
      = calls c ++ [Dequeue msg; SendAll msg; Defunct e])
  /\ (_read_watcher (handle_read (RecvRaise e) c) = Yielded
      /\ calls (handle_read (RecvRaise e) c)
         = calls c ++ [Recv; YieldToLoop]).
Proof.
  intros He Hw Hr Hq Hmsg.
  assert (Hs : is_socket_error e = true) by (by destruct e).
  split.
  - unfold handle_write. rewrite Hw, Hq. destruct msg as [|b m]; [done|].
    rewrite Hs. simpl. split; [done|]. by rewrite <- !app_assoc.
  - unfold handle_read. rewrite Hr, He. simpl. split; [done|].
    by rewrite <- app_assoc.
Qed.

Lemma ssl_want_ends_write_loop_witness :
  let K := {| process_io_buffer := fun io => io |} in
  let c := loop_puts (_push_chunk ["A"%byte] (new_connection 4 4096)) in
  _write_watcher (handle_write (SendRaise 0 SSLWantWriteError) c) = Returned
  /\ _read_watcher (handle_read (RecvRaise SSLWantWriteError) c) = Yielded.
Proof.
  intros K c.
  pose proof (ssl_want_ends_write_loop K c SSLWantWriteError ["A"%byte] []
                0%nat eq_refl eq_refl eq_refl eq_refl ltac:(discriminate))
    as [[Hw _] [Hr _]].
  split; [exact Hw|exact Hr].
Defined.
